(** * Kiro2api-Node: the AWS event-stream decoder

    A shallow embedding of the event-stream parser of the repository
    ([parseFrame], [parseHeaders], [EventStreamDecoder], [parseKiroEvent],
    [crc32c]) and the properties of its specification, checked against it.

    Conventions of the embedding:
    - a Node [Buffer] is a [list byte]; [Buffer.slice] never mutates in this
      code, so views are modelled as values;
    - JavaScript numbers that hold lengths, offsets and decoded integers are
      [Z]; a JavaScript string is the list of its code points;
    - [throw] is the [Throw] outcome, [try]/[catch] is [try_catch];
    - loops and the recursion on nested frames run on a fuel that the entry
      points set from the buffer length; [OutOfFuel] is a separate outcome
      that no [catch] handles, and it is proved unreachable;
    - [zlib.gunzipSync] and [JSON.parse] belong to the runtime: the
      development is parametric in them, and in the engine's
      [CanonicalNumericIndexString], which rests on the conversion of
      floating-point numbers to text;
    - the generator [decode] is run to its end by its caller, and the limits
      of the runtime (call stack, sizes of strings and buffers) are not
      modelled. *)

From Stdlib Require Import ZArith NArith List Lia Bool Ascii String.
From Stdlib Require Import Strings.Byte.
From stdpp Require Import base option list gmap.
Import ListNotations.

Local Open Scope Z_scope.

(** ** Outcomes of JavaScript computations *)

(** The exceptions this code can raise: its two [new Error(...)], the
    [RangeError] of a [Buffer] read outside the buffer, the [TypeError] of
    an assignment to a property that cannot be written (the module is in
    strict mode), and the [SyntaxError] of [JSON.parse]. *)
Inductive error : Type :=
| InvalidLength (totalLength : Z)
| UnknownHeaderType (headerType : Z)
| RangeError
| TypeError
| SyntaxError.

Inductive outcome (A : Type) : Type :=
| Return (a : A)
| Throw (e : error)
| OutOfFuel.
Arguments Return {A} a.
Arguments Throw {A} e.
Arguments OutOfFuel {A}.

Definition bind {A B : Type} (m : outcome A) (k : A -> outcome B) : outcome B :=
  match m with
  | Return a => k a
  | Throw e => Throw e
  | OutOfFuel => OutOfFuel
  end.

(** [try { m } catch (e) { h e }]: every exception is handled, an exhausted
    fuel is not an exception. *)
Definition try_catch {A : Type} (m : outcome A) (h : error -> outcome A) : outcome A :=
  match m with
  | Return a => Return a
  | Throw e => h e
  | OutOfFuel => OutOfFuel
  end.

Declare Scope js_scope.
Delimit Scope js_scope with js.
Notation "'let*' x ':=' m 'in' k" := (bind m (fun x => k))
  (at level 10, x name, m at level 100, k at level 200) : js_scope.
Notation "'let*' ' p ':=' m 'in' k" := (bind m (fun x => match x with p => k end))
  (at level 10, p pattern, m at level 100, k at level 200) : js_scope.
Local Open Scope js_scope.

(** ** Node's Buffer *)

Module Buffer.

Abbreviation t := (list byte).

Definition byte_val (x : byte) : Z := Z.of_N (Byte.to_N x).

(** [buffer.length] *)
Definition len (b : t) : Z := Z.of_nat (length b).

(** An index argument of [slice]: negative counts from the end, and the
    result is clamped to the buffer. *)
Definition clamp (b : t) (i : Z) : Z :=
  if i <? 0 then Z.max (len b + i) 0 else Z.min i (len b).

(** [buffer.slice(start, end)] *)
Definition slice (b : t) (start end_ : Z) : t :=
  let s := clamp b start in
  let e := clamp b end_ in
  take (Z.to_nat (e - s)) (drop (Z.to_nat s) b).

(** [buffer.slice(start)] *)
Definition slice_from (b : t) (start : Z) : t := slice b start (len b).

(** [Buffer.concat([a, b])] *)
Definition concat (a b : t) : t := a ++ b.

(** Big-endian value of a run of bytes. *)
Definition be_value (l : t) : Z :=
  fold_left (fun acc x => acc * 256 + byte_val x) l 0.

(** Two's complement reading of an unsigned [w]-bit value. *)
Definition to_signed (w : Z) (z : Z) : Z :=
  if z <? 2 ^ (w - 1) then z else z - 2 ^ w.

(** The [n] bytes at [offset], when the buffer has them; the reads below
    throw a [RangeError] otherwise. *)
Definition window (n : nat) (b : t) (offset : Z) : outcome t :=
  if (0 <=? offset) && (offset + Z.of_nat n <=? len b)
  then Return (take n (drop (Z.to_nat offset) b))
  else Throw RangeError.

Definition readUInt8 (b : t) (offset : Z) : outcome Z :=
  let* w := window 1 b offset in Return (be_value w).
Definition readUInt16BE (b : t) (offset : Z) : outcome Z :=
  let* w := window 2 b offset in Return (be_value w).
Definition readUInt32BE (b : t) (offset : Z) : outcome Z :=
  let* w := window 4 b offset in Return (be_value w).
Definition readInt8 (b : t) (offset : Z) : outcome Z :=
  let* w := window 1 b offset in Return (to_signed 8 (be_value w)).
Definition readInt16BE (b : t) (offset : Z) : outcome Z :=
  let* w := window 2 b offset in Return (to_signed 16 (be_value w)).
Definition readInt32BE (b : t) (offset : Z) : outcome Z :=
  let* w := window 4 b offset in Return (to_signed 32 (be_value w)).
Definition readBigInt64BE (b : t) (offset : Z) : outcome Z :=
  let* w := window 8 b offset in Return (to_signed 64 (be_value w)).

(** [buffer[i]], [None] for [undefined]. *)
Definition index (b : t) (i : nat) : option Z := byte_val <$> b !! i.

(** Bytes from their numeric values, for writing buffers down. *)
Definition byte_of (z : Z) : byte :=
  match Byte.of_N (Z.to_N z) with Some x => x | None => x00 end.

Definition of_list (l : list Z) : t := map byte_of l.

Definition of_string (s : string) : t := list_byte_of_string s.

(** The [width] bytes of the big-endian two's complement writing of [z]
    ([writeUInt32BE], [writeInt16BE], [writeBigInt64BE], ...). *)
Fixpoint int_be (width : nat) (z : Z) : t :=
  match width with
  | O => []
  | S w => int_be w (z / 256) ++ [byte_of (z mod 256)]
  end.

Definition uint32be (z : Z) : t := int_be 4 z.

Definition uint16be (z : Z) : t := int_be 2 z.

End Buffer.

(** ** JavaScript strings and the two encodings the parser decodes *)

(** A string is the list of its code points. *)
Abbreviation jsstring := (list N).

Definition js (s : string) : jsstring := map N_of_ascii (list_ascii_of_string s).

Module Utf8.

(** The state of a multi-byte sequence: the code point built so far, the
    continuation bytes still needed, and the range the next one must be in. *)
Record pending := Pending { cp : N; needed : nat; lower : N; upper : N }.

Definition replacement : N := 65533.

(** A byte met outside a sequence: a code point, the start of a sequence,
    or an invalid byte. *)
Definition lead (x : N) : jsstring * option pending :=
  (if x <=? 127 then ([x], None)
   else if (194 <=? x) && (x <=? 223) then ([], Some (Pending (N.land x 31) 1 128 191))
   else if (224 <=? x) && (x <=? 239) then
     ([], Some (Pending (N.land x 15) 2 (if x =? 224 then 160 else 128)
                        (if x =? 237 then 159 else 191)))
   else if (240 <=? x) && (x <=? 244) then
     ([], Some (Pending (N.land x 7) 3 (if x =? 240 then 144 else 128)
                        (if x =? 244 then 143 else 191)))
   else ([replacement], None))%N.

(** [buffer.toString('utf8')]: malformed input becomes U+FFFD, one per
    maximal ill-formed prefix, and decoding resumes at the offending byte. *)
Fixpoint decode_from (st : option pending) (l : list byte) : jsstring :=
  match l with
  | [] => match st with Some _ => [replacement] | None => [] end
  | b :: rest =>
      let x := Byte.to_N b in
      match st with
      | None => let '(out, st') := lead x in out ++ decode_from st' rest
      | Some p =>
          if ((lower p <=? x) && (x <=? upper p))%N then
            let c := N.lor (N.shiftl (cp p) 6) (N.land x 63) in
            match needed p with
            | S (S k) => decode_from (Some (Pending c (S k) 128 191)) rest
            | _ => c :: decode_from None rest
            end
          else
            let '(out, st') := lead x in
            replacement :: out ++ decode_from st' rest
      end
  end.

Definition toString (l : list byte) : jsstring := decode_from None l.

End Utf8.

Module Hex.

Definition digit (n : N) : N := (if n <? 10 then 48 + n else 87 + n)%N.

(** [buffer.toString('hex')] *)
Definition toString (l : list byte) : jsstring :=
  flat_map (fun b => let x := Byte.to_N b in [digit (x / 16); digit (x mod 16)]%N) l.

End Hex.

(** ** Header values and the headers object *)

(** The values [parseHeaders] stores: booleans, numbers (tags 2 to 4),
    a BigInt (tag 5), a Buffer (tag 6), strings (tag 7, and the hex text of
    tag 9) and a Date (tag 8). *)
Inductive value : Type :=
| VBool (b : bool)
| VNumber (n : Z)
| VBigInt (n : Z)
| VBuffer (b : Buffer.t)
| VString (s : jsstring)
| VDate (time : option Z).

(** [new Date(Number(n))] for a 64-bit integer [n]: the time value is [n]
    when it lies in the range of a Date, where [Number] is exact, and the
    Date is invalid ([None]) otherwise. *)
Definition Date_of (n : Z) : value :=
  VDate (if Z.abs n <=? 8640000000000000 then Some n else None).

(** The prototype of the [headers] object: [Object.prototype], as the
    literal [{}] has it, or the object that an assignment to [__proto__] has
    installed, which is a Buffer (a value of tag 6) or a Date (tag 8). *)
Inductive prototype : Type :=
| ObjectPrototype
| BufferPrototype (b : Buffer.t)
| DatePrototype (time : option Z).

(** The [headers] object: its own properties and its prototype. *)
Record headers_t : Type := Headers { props : gmap jsstring value; proto : prototype }.

(** [{}] *)
#[export] Instance headers_empty : Empty headers_t := Headers ∅ ObjectPrototype.

(** [hs !! name] is the own property [name]. For the two names the code
    reads, [:content-type] and [:event-type], it is [headers[name]]: none of
    the prototypes has a property of these names. *)
#[export] Instance headers_lookup : Lookup jsstring value headers_t :=
  fun name hs => props hs !! name.

(** What the headers object asks of the JavaScript engine when its
    prototype is a typed array. [CanonicalNumericIndexString(name)] is a
    number, that is, [name] is the text the engine prints for some number
    ([-0] included): a typed array treats such names as indices, and the
    test rests on the conversion of floating-point numbers to text.
    [converts_before_dropping]: an assignment to such a name beyond the
    elements of the typed array is dropped; V8 first converts the value to
    a number, which throws for a BigInt, and the standard (since 2021) has
    the assignment return without the conversion. *)
Class Engine : Type := MkEngine {
  CanonicalNumericIndexString : jsstring -> bool;
  converts_before_dropping : bool }.

(** The number a name of the form [0], [1], [2], ... (no sign, no leading
    zero) writes. *)
Fixpoint decimal_value (acc : Z) (s : jsstring) : option Z :=
  match s with
  | [] => Some acc
  | c :: s =>
      if ((48 <=? c) && (c <=? 57))%N then decimal_value (acc * 10 + (Z.of_N c - 48)) s
      else None
  end.

Definition array_index (name : jsstring) : option Z :=
  match name with
  | [] => None
  | [48%N] => Some 0
  | 48%N :: _ => None
  | _ => decimal_value 0 name
  end.

(** An engine for the closed examples. It knows the numeric names without
    fraction and exponent and with at most 15 digits: the integers written
    in decimal, [-0], [NaN], [Infinity] and [-Infinity]. Every engine
    agrees with it on these and on the names that are no numbers; the
    examples use no other name below a Buffer. *)
Definition integer_names (name : jsstring) : bool :=
  bool_decide (name ∈ map js ["NaN"; "Infinity"; "-Infinity"]%string)
  || (let digits := match name with 45%N :: rest => rest | _ => name end in
      (length digits <=? 15)%nat && bool_decide (is_Some (array_index digits))).

Definition example_engine : Engine := MkEngine integer_names true.

(** [name] is an index of the elements of the Buffer [b]. *)
Definition is_index (name : jsstring) (b : Buffer.t) : bool :=
  match array_index name with
  | Some n => n <? Buffer.len b
  | None => false
  end.

(** The properties that an object inherits from a Buffer and cannot
    write: accessors without a setter ([length], [buffer], [byteLength] and
    [byteOffset] of the typed arrays, [parent] and [offset] of Node's
    [Buffer.prototype]) and the constant [BYTES_PER_ELEMENT]. *)
Definition read_only_names : list jsstring :=
  map js ["length"; "buffer"; "byteLength"; "byteOffset"; "BYTES_PER_ELEMENT";
          "parent"; "offset"]%string.

Section Assignment.
Context {engine : Engine}.

(** [headers[name] = value] throws its [TypeError]: the prototype is a
    Buffer, [name] is neither an own property nor [__proto__] nor an index
    of the Buffer's elements, and either [name] is a numeric name, the
    engine converts before dropping and the value is a BigInt, or [name] is
    no numeric name and the Buffer's prototype chain holds it as a property
    that cannot be written. *)
Definition assignment_throws (headers : headers_t) (name : jsstring) (v : value) : bool :=
  match proto headers with
  | BufferPrototype b =>
      negb (bool_decide (is_Some (props headers !! name)))
      && negb (bool_decide (name = js "__proto__"))
      && negb (is_index name b)
      && (if CanonicalNumericIndexString name
          then converts_before_dropping
               && match v with VBigInt _ => true | _ => false end
          else bool_decide (name ∈ read_only_names))
  | _ => false
  end.

(** What [headers[name] = value] does when it does not throw.
    [__proto__] is the accessor of [Object.prototype], at the end of every
    prototype chain here: its setter installs an object value as the
    prototype and ignores any other value; it creates no own property. An
    own property is overwritten. A new name is added as an own property,
    except below a Buffer: there a numeric name that is not one of the
    Buffer's indices is dropped without an error. *)
Definition set_property (headers : headers_t) (name : jsstring) (v : value) : headers_t :=
  let written := Headers (<[name := v]> (props headers)) (proto headers) in
  if decide (name = js "__proto__") then
    match v with
    | VBuffer b => Headers (props headers) (BufferPrototype b)
    | VDate time => Headers (props headers) (DatePrototype time)
    | _ => headers
    end
  else if bool_decide (is_Some (props headers !! name)) then written
  else
    match proto headers with
    | BufferPrototype b =>
        if is_index name b then written
        else if CanonicalNumericIndexString name then headers
        else written
    | _ => written
    end.

(** [headers[name] = value] *)
Definition assign (headers : headers_t) (name : jsstring) (v : value) : outcome headers_t :=
  if assignment_throws headers name v then Throw TypeError
  else Return (set_property headers name v).

End Assignment.

(** ** parseHeaders *)

(** The [switch (headerType)] of [parseHeaders]: the decoded value and the
    offset after it. *)
Definition header_value (buffer : Buffer.t) (headerType offset : Z) : outcome (value * Z) :=
  match headerType with
  | 0 => Return (VBool true, offset)
  | 1 => Return (VBool false, offset)
  | 2 => let* v := Buffer.readInt8 buffer offset in Return (VNumber v, offset + 1)
  | 3 => let* v := Buffer.readInt16BE buffer offset in Return (VNumber v, offset + 2)
  | 4 => let* v := Buffer.readInt32BE buffer offset in Return (VNumber v, offset + 4)
  | 5 => let* v := Buffer.readBigInt64BE buffer offset in Return (VBigInt v, offset + 8)
  | 6 =>
      let* bytesLength := Buffer.readUInt16BE buffer offset in
      let offset := offset + 2 in
      Return (VBuffer (Buffer.slice buffer offset (offset + bytesLength)), offset + bytesLength)
  | 7 =>
      let* strLength := Buffer.readUInt16BE buffer offset in
      let offset := offset + 2 in
      Return (VString (Utf8.toString (Buffer.slice buffer offset (offset + strLength))),
              offset + strLength)
  | 8 => let* v := Buffer.readBigInt64BE buffer offset in Return (Date_of v, offset + 8)
  | 9 => Return (VString (Hex.toString (Buffer.slice buffer offset (offset + 16))), offset + 16)
  | _ => Throw (UnknownHeaderType headerType)
  end.

(** One turn of the [while] loop up to the assignment: name, value and the
    offset of the next record. *)
Definition header_entry (buffer : Buffer.t) (offset : Z) : outcome (jsstring * value * Z) :=
  let* nameLength := Buffer.readUInt8 buffer offset in
  let offset := offset + 1 in
  let name := Utf8.toString (Buffer.slice buffer offset (offset + nameLength)) in
  let offset := offset + nameLength in
  let* headerType := Buffer.readUInt8 buffer offset in
  let offset := offset + 1 in
  let* '(v, offset) := header_value buffer headerType offset in
  Return (name, v, offset).

Section HeaderLoop.
Context {engine : Engine}.

Fixpoint parseHeaders_loop (fuel : nat) (buffer : Buffer.t) (offset : Z)
    (headers : headers_t) : outcome headers_t :=
  if offset <? Buffer.len buffer then
    match fuel with
    | O => OutOfFuel
    | S fuel' =>
        let* '(name, v, offset) := header_entry buffer offset in
        let* headers := assign headers name v in
        parseHeaders_loop fuel' buffer offset headers
    end
  else Return headers.

Definition parseHeaders (buffer : Buffer.t) : outcome headers_t :=
  parseHeaders_loop (length buffer) buffer 0 ∅.

End HeaderLoop.

(** ** parseFrame *)

Definition PRELUDE_SIZE : Z := 12.
Definition MESSAGE_CRC_SIZE : Z := 4.
Definition MIN_MESSAGE_SIZE : Z := PRELUDE_SIZE + MESSAGE_CRC_SIZE.
Definition MAX_MESSAGE_SIZE : Z := 16 * 1024 * 1024.

(** The frame objects [parseFrame] builds. [payload] is [None] for [null];
    [nested] is [None] both for [null] and for a frame without the property,
    which the code tells apart nowhere ([if (frame.nested)]). *)
#[warnings="-register-all"] Inductive frame : Type :=
  Frame { headers : headers_t; payload : option Buffer.t; nested : option frame; consumed : Z }.

Definition content_type_key : jsstring := js ":content-type".
Definition event_type_key : jsstring := js ":event-type".
Definition nested_marker : jsstring := js "application/vnd.amazon.eventstream".

(** [contentType === 'application/vnd.amazon.eventstream'] *)
Definition is_nested (contentType : option value) : bool :=
  match contentType with
  | Some (VString s) => bool_decide (s = nested_marker)
  | _ => false
  end.

(** ** EventStreamDecoder: its state *)

Record EventStreamDecoder : Type := { buffer : Buffer.t }.

(** [new EventStreamDecoder()] *)
Definition new_decoder : EventStreamDecoder := {| buffer := [] |}.

Definition feed (d : EventStreamDecoder) (data : Buffer.t) : EventStreamDecoder :=
  {| buffer := Buffer.concat (buffer d) data |}.

(** What one turn of the loop of [decode] does besides changing the
    buffer: it yields a frame or it skips a byte. *)
Inductive event : Type :=
| Yield (f : frame)
| Resync.

(** The result of the loop body: [break], or go on with a new buffer. *)
Inductive turn : Type :=
| Break
| Continue (ev : event) (rest : Buffer.t).

Definition yielded (evs : list event) : list frame :=
  omap (fun ev => match ev with Yield f => Some f | Resync => None end) evs.

Section Runtime.
Context {engine : Engine}.

(** [zlib.gunzipSync], [None] when it throws. *)
Variable gunzipSync : Buffer.t -> option Buffer.t.

(** The guarded decompression of the payload; a failure keeps the bytes. *)
Definition try_gunzip (payload : Buffer.t) : Buffer.t :=
  if 0 <? Buffer.len payload then
    if bool_decide (Buffer.index payload 0 = Some 31)
       && bool_decide (Buffer.index payload 1 = Some 139)
    then match gunzipSync payload with Some p => p | None => payload end
    else payload
  else payload.

(** The body of [parseFrame], with the function to call on a nested payload. *)
Definition parseFrame_body (parseFrame : Buffer.t -> Z -> outcome (option frame))
    (buffer : Buffer.t) (offset : Z) : outcome (option frame) :=
  if Buffer.len buffer - offset <? MIN_MESSAGE_SIZE then Return None
  else
    let* totalLength := Buffer.readUInt32BE buffer offset in
    let* headersLength := Buffer.readUInt32BE buffer (offset + 4) in
    if (totalLength <? MIN_MESSAGE_SIZE) || (MAX_MESSAGE_SIZE <? totalLength)
    then Throw (InvalidLength totalLength)
    else if Buffer.len buffer - offset <? totalLength then Return None
    else
      let headersStart := offset + PRELUDE_SIZE in
      let headersEnd := headersStart + headersLength in
      let* headers := parseHeaders (Buffer.slice buffer headersStart headersEnd) in
      let payloadStart := headersEnd in
      let payloadEnd := offset + totalLength - MESSAGE_CRC_SIZE in
      let payload := Buffer.slice buffer payloadStart payloadEnd in
      let contentType := headers !! content_type_key in
      if is_nested contentType then
        let* inner := parseFrame payload 0 in
        Return (Some (Frame headers None inner totalLength))
      else
        Return (Some (Frame headers (Some (try_gunzip payload)) None totalLength)).

Fixpoint parseFrame_rec (fuel : nat) : Buffer.t -> Z -> outcome (option frame) :=
  match fuel with
  | O => fun _ _ => OutOfFuel
  | S fuel' => parseFrame_body (parseFrame_rec fuel')
  end.

(** [parseFrame(buffer, offset)]; [None] is the [null] of "not enough
    data". A nested payload is shorter than its frame, so the length of
    the buffer bounds the depth of the recursion. *)
Definition parseFrame (buffer : Buffer.t) (offset : Z) : outcome (option frame) :=
  parseFrame_rec (S (length buffer)) buffer offset.

(** ** EventStreamDecoder: decode *)

(** The [try { ... } catch (e) { ... }] of the loop body. *)
Definition decode_turn (buf : Buffer.t) : outcome turn :=
  try_catch
    (let* parsed := parseFrame buf 0 in
     match parsed with
     | None => Return Break
     | Some fr =>
         let rest := Buffer.slice_from buf (consumed fr) in
         match nested fr with
         | Some inner => Return (Continue (Yield inner) rest)
         | None => Return (Continue (Yield fr) rest)
         end
     end)
    (fun _ => Return (Continue Resync (Buffer.slice_from buf 1))).

Fixpoint decode_loop (fuel : nat) (buf : Buffer.t) : outcome (list event * Buffer.t) :=
  if MIN_MESSAGE_SIZE <=? Buffer.len buf then
    match fuel with
    | O => OutOfFuel
    | S fuel' =>
        let* t := decode_turn buf in
        match t with
        | Break => Return ([], buf)
        | Continue ev rest =>
            let* '(evs, final) := decode_loop fuel' rest in
            Return (ev :: evs, final)
        end
    end
  else Return ([], buf).

(** The generator run to its end: the turns it took and the buffer left. *)
Definition decode_trace (d : EventStreamDecoder) : outcome (list event * EventStreamDecoder) :=
  let* '(evs, final) := decode_loop (length (buffer d)) (buffer d) in
  Return (evs, {| buffer := final |}).

(** [[...decoder.decode()]]: the frames of one call and the decoder after it. *)
Definition decode (d : EventStreamDecoder) : outcome (list frame * EventStreamDecoder) :=
  let* '(evs, d') := decode_trace d in
  Return (yielded evs, d').

End Runtime.

(** ** crc32c

    The checksum the module defines; [parseFrame] never calls it. The
    32-bit operators of JavaScript are written out: [^] and [&] give a signed
    32-bit result, [>>>] reads its left operand as unsigned. *)

Module Int32.

Definition to_uint32 (z : Z) : Z := z mod 2 ^ 32.

Definition to_int32 (z : Z) : Z :=
  let u := z mod 2 ^ 32 in if u <? 2 ^ 31 then u else u - 2 ^ 32.

(** [a >>> n] *)
Definition ushr (a n : Z) : Z := Z.shiftr (to_uint32 a) n.

(** [a ^ b] *)
Definition xor (a b : Z) : Z := to_int32 (Z.lxor (to_int32 a) (to_int32 b)).

(** [a & b] *)
Definition and (a b : Z) : Z := to_int32 (Z.land (to_int32 a) (to_int32 b)).

End Int32.

(** The inner loop of [getCrc32cTable] for the entry [i], stored in a
    [Uint32Array]. *)
Definition crc32c_entry (i : Z) : Z :=
  Int32.to_uint32
    (Nat.iter 8
       (fun crc => if Int32.and crc 1 =? 0 then Int32.ushr crc 1
                   else Int32.xor 2197175160 (Int32.ushr crc 1))
       i).

Definition getCrc32cTable : list Z := map (fun i => crc32c_entry (Z.of_nat i)) (seq 0 256).

Definition crc32c (data : Buffer.t) : Z :=
  let table := getCrc32cTable in
  let crc :=
    fold_left
      (fun crc x =>
         Int32.xor (Int32.ushr crc 8)
           (nth (Z.to_nat (Int32.and (Int32.xor crc (Buffer.byte_val x)) 255)) table 0))
      data 4294967295 in
  Int32.ushr (Int32.xor crc 4294967295) 0.

(** ** Names for the parts of a frame and of a run *)

(** The header region and the payload region of the frame at [offset]. *)
Definition header_region (buffer : Buffer.t) (offset headersLength : Z) : Buffer.t :=
  Buffer.slice buffer (offset + PRELUDE_SIZE) (offset + PRELUDE_SIZE + headersLength).

Definition payload_region (buffer : Buffer.t) (offset totalLength headersLength : Z) : Buffer.t :=
  Buffer.slice buffer (offset + PRELUDE_SIZE + headersLength)
    (offset + totalLength - MESSAGE_CRC_SIZE).

(** A runtime whose [gunzipSync] always throws, to run the parser on
    buffers that hold no gzip payload, where no runtime is asked. *)
Definition no_gunzip : Buffer.t -> option Buffer.t := fun _ => None.

(** The big-endian 32-bit number at [offset]: the declared total length of
    a frame that starts there. *)
Definition totalLength_at (buffer : Buffer.t) (offset : Z) : Z :=
  Buffer.be_value (take 4 (drop (Z.to_nat offset) buffer)).

Definition headersLength_at (buffer : Buffer.t) (offset : Z) : Z :=
  totalLength_at buffer (offset + 4).

(** The frame [decode] yields for an extracted frame: its nested frame when
    it has one, the frame itself otherwise. *)
Definition surfaced (fr : frame) : frame :=
  match nested fr with
  | Some inner => inner
  | None => fr
  end.

(** ** Writing frames down

    The wire format, to build the buffers of the examples: a prelude of the
    two lengths and their checksum, the header bytes, the payload, and the
    checksum of all that precedes. *)

Definition encode_frame (headerBytes payloadBytes : Buffer.t) : Buffer.t :=
  let totalLength := MIN_MESSAGE_SIZE + Buffer.len headerBytes + Buffer.len payloadBytes in
  let lengths := Buffer.uint32be totalLength ++ Buffer.uint32be (Buffer.len headerBytes) in
  let body := lengths ++ Buffer.uint32be (crc32c lengths) ++ headerBytes ++ payloadBytes in
  body ++ Buffer.uint32be (crc32c body).

(** A header record: name, tag, and the bytes of the value. *)
Definition encode_header (name : Buffer.t) (tag : Z) (valueBytes : Buffer.t) : Buffer.t :=
  Buffer.of_list [Buffer.len name] ++ name ++ Buffer.of_list [tag] ++ valueBytes.

Definition string_header (name text : string) : Buffer.t :=
  encode_header (Buffer.of_string name) 7
    (Buffer.uint16be (Z.of_nat (String.length text)) ++ Buffer.of_string text).

(** ** Sessions: the calls a caller makes on one decoder *)

Inductive call : Type :=
| Feed (data : Buffer.t)
| Decode.

Section Sessions.
Context {engine : Engine}.
Variable gunzipSync : Buffer.t -> option Buffer.t.

(** The calls in order; the frames of each [decode()] are collected. *)
Fixpoint session (calls : list call) (d : EventStreamDecoder)
    : outcome (list (list frame) * EventStreamDecoder) :=
  match calls with
  | [] => Return ([], d)
  | Feed data :: rest => session rest (feed d data)
  | Decode :: rest =>
      let* '(frames, d') := decode gunzipSync d in
      let* '(outs, final) := session rest d' in
      Return (frames :: outs, final)
  end.

(** [feed(b); decode()] on a fresh decoder. *)
Definition one_shot (b : Buffer.t) : outcome (list frame) :=
  let* '(frames, _) := decode gunzipSync (feed new_decoder b) in
  Return frames.

(** [feed(chunk); decode()] for each chunk in turn, the frames concatenated. *)
Fixpoint chunked (chunks : list Buffer.t) (d : EventStreamDecoder) : outcome (list frame) :=
  match chunks with
  | [] => Return []
  | chunk :: rest =>
      let* '(frames, d') := decode gunzipSync (feed d chunk) in
      let* more := chunked rest d' in
      Return (frames ++ more)
  end.

End Sessions.


Section Shape.
Context {engine : Engine}.
Variable gunzipSync : Buffer.t -> option Buffer.t.


End Shape.

(** ** Predicates used in the statements *)

(** What a fixed-width read can do: return the decoding [f] of the [n]
    bytes at the offset, or throw a [RangeError]. *)
Definition reads (n : nat) (f : Buffer.t -> Z) (read : Buffer.t -> Z -> outcome Z) : Prop :=
  forall b offset,
    (0 <= offset /\ offset + Z.of_nat n <= Buffer.len b /\
     read b offset = Return (f (take n (drop (Z.to_nat offset) b))))
    \/ ((offset < 0 \/ Buffer.len b < offset + Z.of_nat n) /\ read b offset = Throw RangeError).

(** An error of the header codec: a read outside the region, an
    assignment that cannot be made, or an unknown type tag; never the
    invalid-length error. *)
Definition header_error (e : error) : Prop :=
  e = RangeError \/ e = TypeError \/ exists t, e = UnknownHeaderType t /\ (t < 0 \/ 9 < t).

(** ** Example buffers *)

(** A buffer of 16 bytes that declares a total length of 12. *)
Definition declares_12 : Buffer.t := Buffer.uint32be 12 ++ Buffer.of_list (repeat 0 12).

(** A frame without headers and payload: 16 bytes. *)
Definition empty_frame : Buffer.t := encode_frame [] [].

(** A frame with an event type and a payload. *)
Definition event_frame : Buffer.t :=
  encode_frame (string_header ":event-type" "end") (Buffer.of_string "hi").

Definition nested_stream_header : Buffer.t :=
  string_header ":content-type" "application/vnd.amazon.eventstream".

(** A frame marked as a nested stream around [event_frame]. *)
Definition wrapped_frame : Buffer.t := encode_frame nested_stream_header event_frame.

(** A frame marked as a nested stream whose payload region is empty. *)
Definition hollow_frame : Buffer.t := encode_frame nested_stream_header [].


(** ** The wire table of header values

    What a sender writes for each of the ten type tags, and the value the
    table assigns to it. *)

Inductive wire_value : Type :=
| WTrue
| WFalse
| WByte (n : Z)
| WShort (n : Z)
| WInt (n : Z)
| WLong (n : Z)
| WBytes (b : Buffer.t)
| WString (b : Buffer.t)
| WTimestamp (ms : Z)
| WUuid (b : Buffer.t).

Definition tag_of (w : wire_value) : Z :=
  match w with
  | WTrue => 0
  | WFalse => 1
  | WByte _ => 2
  | WShort _ => 3
  | WInt _ => 4
  | WLong _ => 5
  | WBytes _ => 6
  | WString _ => 7
  | WTimestamp _ => 8
  | WUuid _ => 9
  end.

(** The bytes after the tag. *)
Definition value_bytes (w : wire_value) : Buffer.t :=
  match w with
  | WTrue | WFalse => []
  | WByte n => Buffer.int_be 1 n
  | WShort n => Buffer.int_be 2 n
  | WInt n => Buffer.int_be 4 n
  | WLong n => Buffer.int_be 8 n
  | WBytes b | WString b => Buffer.int_be 2 (Buffer.len b) ++ b
  | WTimestamp ms => Buffer.int_be 8 ms
  | WUuid b => b
  end.





(** A header record: the bytes of its name and its value. *)
Definition entry : Type := Buffer.t * wire_value.


Definition encode_entry (e : entry) : Buffer.t :=
  encode_header e.1 (tag_of e.2) (value_bytes e.2).

Definition encode_entries (es : list entry) : Buffer.t := concat (map encode_entry es).


(** One record for each tag. *)
Definition ten_entries : list entry :=
  [ (Buffer.of_string "a", WTrue);
    (Buffer.of_string "b", WFalse);
    (Buffer.of_string "c", WByte (-2));
    (Buffer.of_string "d", WShort (-300));
    (Buffer.of_string "e", WInt 70000);
    (Buffer.of_string "f", WLong 42);
    (Buffer.of_string "g", WBytes (Buffer.of_list [0; 255]));
    (Buffer.of_string "h", WString (Buffer.of_string "hello"));
    (Buffer.of_string "i", WTimestamp 1700000000000);
    (Buffer.of_string "j", WUuid (Buffer.of_list (repeat 171 16))) ].


(** Two records of the table whose names reach the prototype of the
    headers object: [__proto__] with three bytes (tag 6), then [length]. *)
Definition polluting_entries : list entry :=
  [ (Buffer.of_string "__proto__", WBytes (Buffer.of_list [1; 2; 3]));
    (Buffer.of_string "length", WTrue) ].

(** A frame with these two records as headers: 42 bytes. *)
Definition polluted_frame : Buffer.t :=
  encode_frame (encode_entries polluting_entries) (Buffer.of_string "hi").

(** ** parseKiroEvent *)

Section EventMapper.

(** The values of [JSON.parse], and [JSON.parse] itself, [None] when it
    throws its [SyntaxError]. *)
Variable json : Type.
Variable JSON_parse : jsstring -> option json.

(** The [data] of an event: [null], a parsed value, or the text. *)
Inductive event_data : Type :=
| DNull
| DJson (j : json)
| DText (s : jsstring).

(** The event object; [type] is [None] for [undefined]. *)
Record kiro_event : Type := { type : option value; data : event_data }.

Definition parseKiroEvent (fr : frame) : outcome kiro_event :=
  let eventType := headers fr !! event_type_key in
  match payload fr with
  | None => Return {| type := eventType; data := DNull |}
  | Some p =>
      if Buffer.len p =? 0 then Return {| type := eventType; data := DNull |}
      else
        try_catch
          (let* data :=
             match JSON_parse (Utf8.toString p) with
             | Some j => Return j
             | None => Throw SyntaxError
             end in
           Return {| type := eventType; data := DJson data |})
          (fun _ => Return {| type := eventType; data := DText (Utf8.toString p) |})
  end.

End EventMapper.
Arguments DNull {json}.
Arguments DText {json} s.

(** A frame of 16 bytes that declares 7 bytes of headers, followed by three
    more bytes: its four checksum bytes read as two records with an empty
    name and the tag 0, the bytes after it as a record named [a]. *)
Definition overreaching : Buffer.t :=
  Buffer.uint32be 16 ++ Buffer.uint32be 7 ++ Buffer.of_list [0; 0; 0; 0]
  ++ Buffer.of_list [0; 0; 0; 0]
  ++ encode_header (Buffer.of_string "a") 0 [].

(** The value [parseHeaders] gives the name [name] on the records of
    [ten_entries]. *)
Definition ten_entries_value (name : string) : option value :=
  match parseHeaders (engine := example_engine) (encode_entries ten_entries) with
  | Return hs => hs !! js name
  | _ => None
  end.

(** ** Frames as a sender lays them out

    The layout the parser reads: the two lengths, four bytes of prelude
    checksum, the header bytes, the payload, four bytes of message checksum.
    The checksum bytes are arbitrary here. *)

Definition lay_frame (preludeCrc headerBytes payloadBytes messageCrc : Buffer.t) : Buffer.t :=
  Buffer.uint32be (MIN_MESSAGE_SIZE + Buffer.len headerBytes + Buffer.len payloadBytes)
  ++ Buffer.uint32be (Buffer.len headerBytes)
  ++ preludeCrc ++ headerBytes ++ payloadBytes ++ messageCrc.

Section Parts.
Context {engine : Engine}.
Variable gunzipSync : Buffer.t -> option Buffer.t.

(** What [parseFrame] makes of header bytes and payload bytes. *)
Definition frame_of_parts (headerBytes payloadBytes : Buffer.t) : outcome (option frame) :=
  let totalLength := MIN_MESSAGE_SIZE + Buffer.len headerBytes + Buffer.len payloadBytes in
  let* hs := parseHeaders headerBytes in
  if is_nested (hs !! content_type_key) then
    let* inner := parseFrame gunzipSync payloadBytes 0 in
    Return (Some (Frame hs None inner totalLength))
  else
    Return (Some (Frame hs (Some (try_gunzip gunzipSync payloadBytes)) None totalLength)).

(** The bytes [f] are exactly one frame that the codec accepts as [fr], and
    its headers lie inside it. *)
Definition sealed (f : Buffer.t) (fr : frame) : Prop :=
  parseFrame gunzipSync f 0 = Return (Some fr)
  /\ consumed fr = Buffer.len f
  /\ headersLength_at f 0 <= Buffer.len f - 16.

End Parts.

(** A buffer on which [decode] waits: fewer than 16 bytes, or fewer than a
    legal declared total length. *)
Definition stalled (buf : Buffer.t) : Prop :=
  Buffer.len buf < 16
  \/ (16 <= totalLength_at buf 0 <= 16 * 1024 * 1024 /\ Buffer.len buf < totalLength_at buf 0).


(** ** The checksum bit by bit

    The body of the inner loop of [getCrc32cTable], and the checksum that
    runs this round eight times for each byte instead of looking the byte up
    in the table. *)

Definition crc32c_round (crc : Z) : Z :=
  if Int32.and crc 1 =? 0 then Int32.ushr crc 1
  else Int32.xor 2197175160 (Int32.ushr crc 1).

Definition crc32c_bitwise (data : Buffer.t) : Z :=
  let crc :=
    fold_left
      (fun crc x => Nat.iter 8 crc32c_round (Int32.xor crc (Buffer.byte_val x)))
      data 4294967295 in
  Int32.ushr (Int32.xor crc 4294967295) 0.

(** The round on the unsigned view of the 32-bit value: one step of the
    division by the reflected polynomial 0x82F63B78. *)
Definition crc_shift (u : Z) : Z :=
  Z.lxor (Z.shiftr u 1) (if Z.testbit u 0 then 2197175160 else 0).

(** The index of the table lookup of [crc32c] for the state [crc] and the
    byte [x]. *)
Definition crc32c_index (crc : Z) (x : byte) : Z :=
  Int32.and (Int32.xor crc (Buffer.byte_val x)) 255.

(** * settings.js

    [SettingsManager] keeps the admin key and the set of API keys in memory
    and writes them to [settings.json] in its [dataDir]. Keys are strings. A
    [Set] of strings is the list of its elements in insertion order, each
    once. The file is modelled by what [JSON.parse] makes of its content:
    [None] when it is absent, unreadable or no JSON, otherwise the object
    [{adminKey, apiKeys}] that [save] writes ([apiKeys] an array, which a
    hand-edited file may fill with repetitions). *)

Module Settings.

Abbreviation key := jsstring.

(** [Set.prototype.has], [add] and [delete], and [new Set(array)]. *)
Definition Set_has (s : list key) (k : key) : bool := bool_decide (k ∈ s).

Definition Set_add (s : list key) (k : key) : list key :=
  if Set_has s k then s else s ++ [k].

Definition Set_delete (s : list key) (k : key) : list key :=
  filter (fun x => x <> k) s.

Definition Set_of (array : list key) : list key := fold_left Set_add array [].

(** [this.settings], and the object in the file. *)
Record settings_t : Type := Settings { adminKey : key; apiKeys : list key }.

(** A manager and the file of its [dataDir]. *)
Record store : Type := Store { settings : settings_t; file : option settings_t }.

(** [new SettingsManager(dataDir)], with the file as it is found. *)
Definition new_manager (found : option settings_t) : store :=
  Store (Settings [] []) found.

(** How the promise of an [async] method settles. *)
Inductive settled (A : Type) : Type :=
| Fulfilled (a : A)
| Rejected.
Arguments Fulfilled {A} a.
Arguments Rejected {A}.

(** What [fs.writeFile] does: it writes the text, or fails and leaves the
    file in some state. *)
Inductive write : Type :=
| Written
| WriteFailed (leaves : option settings_t).

Definition save (w : write) (st : store) : settled unit * store :=
  let data := Settings (adminKey (settings st)) (apiKeys (settings st)) in
  match w with
  | Written => (Fulfilled tt, Store (settings st) (Some data))
  | WriteFailed leaves => (Rejected, Store (settings st) leaves)
  end.

Definition verifyAdminKey (st : store) (k : key) : bool :=
  bool_decide (adminKey (settings st) = k).

Definition verifyApiKey (st : store) (k : key) : bool :=
  Set_has (apiKeys (settings st)) k.

Definition changeAdminKey (w : write) (newKey : key) (st : store) : settled unit * store :=
  save w (Store (Settings newKey (apiKeys (settings st))) (file st)).

Definition addApiKey (w : write) (k : key) (st : store) : settled bool * store :=
  if Set_has (apiKeys (settings st)) k then (Fulfilled false, st)
  else
    let st1 := Store (Settings (adminKey (settings st)) (Set_add (apiKeys (settings st)) k))
                 (file st) in
    match save w st1 with
    | (Fulfilled _, st2) => (Fulfilled true, st2)
    | (Rejected, st2) => (Rejected, st2)
    end.

Definition removeApiKey (w : write) (k : key) (st : store) : settled bool * store :=
  if (Z.of_nat (length (apiKeys (settings st))) <=? 1)%Z then (Fulfilled false, st)
  else
    let removed := Set_has (apiKeys (settings st)) k in
    let st1 := Store (Settings (adminKey (settings st)) (Set_delete (apiKeys (settings st)) k))
                 (file st) in
    if removed then
      match save w st1 with
      | (Fulfilled _, st2) => (Fulfilled true, st2)
      | (Rejected, st2) => (Rejected, st2)
      end
    else (Fulfilled false, st1).

Definition listApiKeys (st : store) : list key := apiKeys (settings st).

(** [init]: [mkdir_ok] tells whether [fs.mkdir] succeeds. The outer [catch]
    logs every error, so the promise is always fulfilled. *)
Definition init (mkdir_ok : bool) (w : write) (defaultAdminKey defaultApiKey : key)
    (st : store) : settled unit * store :=
  if mkdir_ok then
    match file st with
    | Some loaded =>
        (Fulfilled tt,
         Store (Settings (adminKey loaded) (Set_of (apiKeys loaded))) (file st))
    | None =>
        let st1 := Store (Settings defaultAdminKey
                            (Set_add (apiKeys (settings st)) defaultApiKey))
                     (file st) in
        (Fulfilled tt, snd (save w st1))
    end
  else (Fulfilled tt, st).

(** The calls that change the settings after [init], each with what its
    [writeFile] does, and a run of them. *)
Inductive action : Type :=
| AddApiKey (k : key)
| RemoveApiKey (k : key)
| ChangeAdminKey (newKey : key).

Definition after (a : action) (w : write) (st : store) : store :=
  match a with
  | AddApiKey k => snd (addApiKey w k st)
  | RemoveApiKey k => snd (removeApiKey w k st)
  | ChangeAdminKey newKey => snd (changeAdminKey w newKey st)
  end.

Definition run (calls : list (action * write)) (st : store) : store :=
  fold_left (fun st c => after c.1 c.2 st) calls st.

(** The file holds what is in memory. *)
Definition in_sync (st : store) : Prop := file st = Some (settings st).

End Settings.

(** A manager with two API keys, in step with its file. *)
Definition two_keys : Settings.store :=
  Settings.Store (Settings.Settings (js "admin") [js "k1"; js "k2"])
    (Some (Settings.Settings (js "admin") [js "k1"; js "k2"])).

(** Calls on it: removals of both keys and of the key left, one of them
    with a failing write, with an addition and a change of the admin key in
    between. *)
Definition some_calls : list (Settings.action * Settings.write) :=
  [ (Settings.RemoveApiKey (js "k1"), Settings.Written);
    (Settings.RemoveApiKey (js "k2"), Settings.WriteFailed None);
    (Settings.AddApiKey (js "k3"), Settings.Written);
    (Settings.ChangeAdminKey (js "root"), Settings.Written);
    (Settings.RemoveApiKey (js "k2"), Settings.Written) ].

(** * Properties *)

(** ** The two encodings on examples *)

Example utf8_hello : Utf8.toString (Buffer.of_string "hello") = js "hello".
Proof. reflexivity. Qed.

Example utf8_euro : Utf8.toString (Buffer.of_list [226; 130; 172; 255; 65]) = [8364; 65533; 65]%N.
Proof. reflexivity. Qed.

Example hex_bytes : Hex.toString (Buffer.of_list [0; 171; 255]) = js "00abff".
Proof. reflexivity. Qed.

(** ** Buffers *)

Module BufferFacts.
Import Buffer.

Lemma len_nonneg (b : t) : 0 <= len b.
Proof. unfold len. lia. Qed.

Lemma len_app (a b : t) : len (a ++ b) = len a + len b.
Proof. unfold len. rewrite length_app. lia. Qed.

Lemma len_cons x (b : t) : len (x :: b) = 1 + len b.
Proof. unfold len. simpl length. lia. Qed.

Lemma clamp_range (b : t) i : 0 <= clamp b i <= len b.
Proof.
  pose proof (len_nonneg b). unfold clamp.
  destruct (Z.ltb_spec i 0); lia.
Qed.

Lemma clamp_nonneg (b : t) i : 0 <= i -> clamp b i = Z.min i (len b).
Proof. intros Hi. unfold clamp. destruct (Z.ltb_spec i 0); [lia | reflexivity]. Qed.

Lemma slice_from_drop (b : t) n : 0 <= n -> slice_from b n = drop (Z.to_nat n) b.
Proof.
  intros Hn. unfold slice_from, slice.
  pose proof (len_nonneg b) as Hl.
  rewrite !clamp_nonneg by lia.
  unfold len in *.
  rewrite Z.min_id.
  destruct (Z.le_gt_cases n (Z.of_nat (length b))).
  - rewrite Z.min_l by lia.
    apply take_ge. rewrite length_drop. lia.
  - rewrite Z.min_r by lia.
    rewrite Z.sub_diag. simpl. symmetry. apply drop_ge. lia.
Qed.

Lemma slice_length (b : t) s e :
  Z.of_nat (length (slice b s e)) <= len b - clamp b s.
Proof.
  unfold slice. pose proof (clamp_range b s) as Hs.
  rewrite length_take, length_drop. unfold len in *. lia.
Qed.

Lemma byte_val_range x : 0 <= byte_val x < 256.
Proof.
  unfold byte_val. pose proof (Byte.to_N_bounded x). lia.
Qed.

Lemma be_value_snoc (l : t) x : be_value (l ++ [x]) = be_value l * 256 + byte_val x.
Proof. unfold be_value. rewrite fold_left_app. reflexivity. Qed.

Lemma be_value_range (l : t) : 0 <= be_value l < 256 ^ Z.of_nat (length l).
Proof.
  induction l as [|x l IH] using rev_ind.
  - cbn. lia.
  - rewrite be_value_snoc, length_app. simpl length.
    pose proof (byte_val_range x).
    replace (Z.of_nat (length l + 1)) with (Z.succ (Z.of_nat (length l))) by lia.
    rewrite Z.pow_succ_r by lia. lia.
Qed.

Lemma window_spec n (b : t) offset :
  (0 <= offset /\ offset + Z.of_nat n <= len b /\
   window n b offset = Return (take n (drop (Z.to_nat offset) b)))
  \/ ((offset < 0 \/ len b < offset + Z.of_nat n) /\ window n b offset = Throw RangeError).
Proof.
  unfold window.
  destruct (Z.leb_spec 0 offset); destruct (Z.leb_spec (offset + Z.of_nat n) (len b));
    simpl; [left | right | right | right]; repeat split; auto; lia.
Qed.

Lemma window_length n (b : t) offset w :
  window n b offset = Return w -> length w = n.
Proof.
  destruct (window_spec n b offset) as [(H0 & H1 & ->) | (_ & ->)]; [|discriminate].
  intros [= <-]. rewrite length_take, length_drop. unfold len in *. lia.
Qed.

End BufferFacts.

(** ** parseHeaders: the switch, the progress of the loop, its errors *)

Ltac split_pos n :=
  match n with
  | O => idtac
  | S ?k => try match goal with p : positive |- _ => destruct p; split_pos k end
  end.

Ltac tag_cases t :=
  let H := fresh "Htag" in
  assert (t = 0 \/ t = 1 \/ t = 2 \/ t = 3 \/ t = 4 \/ t = 5 \/ t = 6 \/ t = 7
          \/ t = 8 \/ t = 9 \/ (t < 0 \/ 9 < t)) as H by lia;
  destruct H as [->|[->|[->|[->|[->|[->|[->|[->|[->|[->|H]]]]]]]]]].

Lemma header_value_unknown (buffer : Buffer.t) headerType offset :
  headerType < 0 \/ 9 < headerType ->
  header_value buffer headerType offset = Throw (UnknownHeaderType headerType).
Proof.
  intros H. destruct headerType; [lia | | reflexivity].
  split_pos 4%nat; first [reflexivity | lia].
Qed.

Section ReadFacts.
Import Buffer BufferFacts.

Lemma bind_Return {A B} (m : outcome A) (k : A -> outcome B) r :
  bind m k = Return r -> exists a, m = Return a /\ k a = Return r.
Proof. destruct m; simpl; intros H; try discriminate. eauto. Qed.

Lemma bind_OutOfFuel {A B} (m : outcome A) (k : A -> outcome B) :
  bind m k = OutOfFuel -> m = OutOfFuel \/ exists a, m = Return a /\ k a = OutOfFuel.
Proof. destruct m; simpl; intros H; try discriminate; eauto. Qed.

Lemma bind_Throw {A B} (m : outcome A) (k : A -> outcome B) e :
  bind m k = Throw e -> m = Throw e \/ exists a, m = Return a /\ k a = Throw e.
Proof.
  destruct m as [a|e'|]; simpl; intros H; try discriminate.
  - right. exists a. split; [reflexivity | exact H].
  - left. congruence.
Qed.

Lemma reads_window n f :
  reads n f (fun b offset => let* w := window n b offset in Return (f w)).
Proof.
  intros b offset.
  destruct (window_spec n b offset) as [(H0 & H1 & ->) | (H & ->)]; [left | right]; auto.
Qed.

Lemma readUInt8_reads : reads 1 be_value readUInt8.
Proof. apply reads_window. Qed.
Lemma readUInt16BE_reads : reads 2 be_value readUInt16BE.
Proof. apply reads_window. Qed.
Lemma readUInt32BE_reads : reads 4 be_value readUInt32BE.
Proof. apply reads_window. Qed.
Lemma readInt8_reads : reads 1 (fun w => to_signed 8 (be_value w)) readInt8.
Proof. apply (reads_window 1 (fun w => to_signed 8 (be_value w))). Qed.
Lemma readInt16BE_reads : reads 2 (fun w => to_signed 16 (be_value w)) readInt16BE.
Proof. apply (reads_window 2 (fun w => to_signed 16 (be_value w))). Qed.
Lemma readInt32BE_reads : reads 4 (fun w => to_signed 32 (be_value w)) readInt32BE.
Proof. apply (reads_window 4 (fun w => to_signed 32 (be_value w))). Qed.
Lemma readBigInt64BE_reads : reads 8 (fun w => to_signed 64 (be_value w)) readBigInt64BE.
Proof. apply (reads_window 8 (fun w => to_signed 64 (be_value w))). Qed.

Lemma reads_inv n f read b offset v :
  reads n f read -> read b offset = Return v ->
  0 <= offset /\ offset + Z.of_nat n <= len b /\ v = f (take n (drop (Z.to_nat offset) b)).
Proof.
  intros Hr H. destruct (Hr b offset) as [(H0 & H1 & H2) | (_ & H2)]; rewrite H2 in H.
  - injection H as <-. auto.
  - discriminate.
Qed.

Lemma reads_outcome n f read b offset :
  reads n f read -> read b offset <> OutOfFuel.
Proof. intros Hr. destruct (Hr b offset) as [(_ & _ & ->) | (_ & ->)]; discriminate. Qed.

Lemma reads_Throw n f read b offset e :
  reads n f read -> read b offset = Throw e -> e = RangeError.
Proof.
  intros Hr H. destruct (Hr b offset) as [(_ & _ & H2) | (_ & H2)]; rewrite H2 in H; congruence.
Qed.

Lemma unsigned_read_range n read b offset v :
  reads n be_value read -> read b offset = Return v ->
  0 <= v < 256 ^ Z.of_nat n.
Proof.
  intros Hr H. destruct (reads_inv _ _ _ _ _ _ Hr H) as (H0 & H1 & ->).
  pose proof (be_value_range (take n (drop (Z.to_nat offset) b))) as Hb.
  rewrite length_take, length_drop in Hb. unfold len in H1.
  replace (n `min` (length b - Z.to_nat offset))%nat with n in Hb by lia. exact Hb.
Qed.

End ReadFacts.

Section HeaderFacts.
Context {engine : Engine}.
Import Buffer BufferFacts.

Ltac case_read :=
  match goal with
  | |- context [readUInt8 ?b ?o] =>
      destruct (readUInt8_reads b o) as [(? & ? & ->) | (? & ->)]
  | |- context [readUInt16BE ?b ?o] =>
      destruct (readUInt16BE_reads b o) as [(? & ? & ->) | (? & ->)]
  | |- context [readInt8 ?b ?o] =>
      destruct (readInt8_reads b o) as [(? & ? & ->) | (? & ->)]
  | |- context [readInt16BE ?b ?o] =>
      destruct (readInt16BE_reads b o) as [(? & ? & ->) | (? & ->)]
  | |- context [readInt32BE ?b ?o] =>
      destruct (readInt32BE_reads b o) as [(? & ? & ->) | (? & ->)]
  | |- context [readBigInt64BE ?b ?o] =>
      destruct (readBigInt64BE_reads b o) as [(? & ? & ->) | (? & ->)]
  end.

(** The assignment throws its [TypeError] or returns the object that
    [set_property] describes. *)
Lemma assign_cases (headers : headers_t) name v :
  assign headers name v = Throw TypeError
  \/ assign headers name v = Return (set_property headers name v).
Proof. unfold assign. destruct (assignment_throws headers name v); auto. Qed.

(** The assignment of a new name other than [__proto__] below a Buffer:
    an index of its elements is stored; any other numeric name is dropped,
    after a conversion that a BigInt fails where the engine converts; a
    name that the Buffer's chain holds read-only throws; any other name is
    stored. *)
Lemma assign_below_Buffer (own : gmap jsstring value) (b : Buffer.t) name v :
  own !! name = None -> name <> js "__proto__" ->
  let hs := Headers own (BufferPrototype b) in
  let stored := Return (Headers (<[name := v]> own) (BufferPrototype b)) in
  assign hs name v =
  if is_index name b then stored
  else if CanonicalNumericIndexString name then
    match v with
    | VBigInt _ => if converts_before_dropping then Throw TypeError else Return hs
    | _ => Return hs
    end
  else if bool_decide (name ∈ read_only_names) then Throw TypeError
  else stored.
Proof.
  intros Hown Hn. cbv zeta. unfold assign, assignment_throws, set_property.
  cbn [props proto]. rewrite Hown.
  rewrite (bool_decide_eq_false_2 (is_Some None)) by (intros [x Hx]; discriminate Hx).
  rewrite (bool_decide_eq_false_2 (name = js "__proto__")) by exact Hn.
  destruct (decide (name = js "__proto__")); [contradiction|].
  cbn [negb andb].
  destruct (is_index name b); cbn [negb andb]; [reflexivity|].
  destruct (CanonicalNumericIndexString name).
  - destruct converts_before_dropping; destruct v; reflexivity.
  - destruct (bool_decide (name ∈ read_only_names)); reflexivity.
Qed.

(** The switch returns for the tags 0 to 9 only, never moves the offset
    back, and fails with a header error. *)
Lemma header_value_outcome (buffer : Buffer.t) headerType offset :
  match header_value buffer headerType offset with
  | Return (_, offset') => 0 <= headerType <= 9 /\ offset <= offset'
  | Throw e => header_error e
  | OutOfFuel => False
  end.
Proof.
  tag_cases headerType;
    try (rewrite header_value_unknown by assumption; right; right; eauto);
    cbv beta iota delta [header_value]; try (split; lia);
    case_read; cbn [bind]; try (left; reflexivity); try (split; lia).
  - pose proof (be_value_range (take 2 (drop (Z.to_nat offset) buffer))). lia.
  - pose proof (be_value_range (take 2 (drop (Z.to_nat offset) buffer))). lia.
Qed.

(** One record: at least the name length and the tag are consumed. *)
Lemma header_entry_outcome (buffer : Buffer.t) offset :
  match header_entry buffer offset with
  | Return (_, _, offset') => 0 <= offset -> offset + 2 <= offset'
  | Throw e => header_error e
  | OutOfFuel => False
  end.
Proof.
  unfold header_entry.
  case_read; cbn [bind]; [|left; reflexivity].
  pose proof (be_value_range (take 1 (drop (Z.to_nat offset) buffer))) as Hn.
  set (nameLength := be_value (take 1 (drop (Z.to_nat offset) buffer))) in *.
  case_read; cbn [bind]; [|left; reflexivity].
  match goal with |- context [header_value ?b ?t ?o] =>
    pose proof (header_value_outcome b t o) as Hv; destruct (header_value b t o) as [[v o']| |]
  end; cbn [bind]; auto.
  intros _. lia.
Qed.

Lemma parseHeaders_loop_outcome fuel (buffer : Buffer.t) offset headers :
  0 <= offset -> len buffer - offset <= Z.of_nat fuel ->
  match parseHeaders_loop fuel buffer offset headers with
  | Return _ => True
  | Throw e => header_error e
  | OutOfFuel => False
  end.
Proof.
  revert offset headers.
  induction fuel as [|fuel IH]; intros offset headers H0 Hf; cbn [parseHeaders_loop].
  - destruct (Z.ltb_spec offset (len buffer)); [lia | exact I].
  - destruct (Z.ltb_spec offset (len buffer)); [|exact I].
    pose proof (header_entry_outcome buffer offset) as He.
    destruct (header_entry buffer offset) as [[[name v] offset']| |]; cbn [bind]; auto.
    destruct (assign_cases headers name v) as [-> | ->]; cbn [bind];
      [right; left; reflexivity|].
    apply IH; lia.
Qed.

(** [parseHeaders] returns or throws a header error: its loop ends. *)
Lemma parseHeaders_outcome (buffer : Buffer.t) :
  match parseHeaders buffer with
  | Return _ => True
  | Throw e => header_error e
  | OutOfFuel => False
  end.
Proof. apply parseHeaders_loop_outcome; unfold len; lia. Qed.


End HeaderFacts.

(** ** parseFrame: the paths through its body *)

Section FrameFacts.
Context {engine : Engine}.
Import Buffer BufferFacts.
Variable gunzipSync : Buffer.t -> option Buffer.t.

Abbreviation parseFrame_body' := (parseFrame_body gunzipSync).
Abbreviation parseFrame' := (parseFrame gunzipSync).

Lemma payload_region_shorter (buffer : Buffer.t) offset totalLength headersLength :
  0 <= offset -> 0 <= headersLength -> MIN_MESSAGE_SIZE <= len buffer - offset ->
  (length (payload_region buffer offset totalLength headersLength) < length buffer)%nat.
Proof.
  unfold payload_region, MIN_MESSAGE_SIZE, PRELUDE_SIZE, MESSAGE_CRC_SIZE.
  intros H0 Hh Hl.
  pose proof (slice_length buffer (offset + 12 + headersLength) (offset + totalLength - 4)) as Hs.
  rewrite clamp_nonneg in Hs by lia. unfold len in *. lia.
Qed.

(** Every path through the body of [parseFrame], in the order of the code. *)
Lemma parseFrame_body_spec recur (buffer : Buffer.t) offset :
  let r := parseFrame_body' recur buffer offset in
  (len buffer - offset < MIN_MESSAGE_SIZE /\ r = Return None)
  \/ (MIN_MESSAGE_SIZE <= len buffer - offset /\ offset < 0 /\ r = Throw RangeError)
  \/ exists totalLength headersLength,
      0 <= offset /\ MIN_MESSAGE_SIZE <= len buffer - offset /\
      readUInt32BE buffer offset = Return totalLength /\
      readUInt32BE buffer (offset + 4) = Return headersLength /\
      0 <= headersLength < 2 ^ 32 /\
      (((totalLength < MIN_MESSAGE_SIZE \/ MAX_MESSAGE_SIZE < totalLength) /\
        r = Throw (InvalidLength totalLength))
       \/ (MIN_MESSAGE_SIZE <= totalLength <= MAX_MESSAGE_SIZE /\
           len buffer - offset < totalLength /\ r = Return None)
       \/ (MIN_MESSAGE_SIZE <= totalLength <= MAX_MESSAGE_SIZE /\
           totalLength <= len buffer - offset /\
           let region := header_region buffer offset headersLength in
           let payload := payload_region buffer offset totalLength headersLength in
           ((exists e, parseHeaders region = Throw e /\ header_error e /\ r = Throw e)
            \/ exists hs, parseHeaders region = Return hs /\
                 ((is_nested (hs !! content_type_key) = true /\
                   r = let* inner := recur payload 0 in
                       Return (Some (Frame hs None inner totalLength)))
                  \/ (is_nested (hs !! content_type_key) = false /\
                      r = Return (Some (Frame hs (Some (try_gunzip gunzipSync payload)) None
                                          totalLength))))))).
Proof.
  cbv zeta. unfold parseFrame_body.
  destruct (Z.ltb_spec (len buffer - offset) MIN_MESSAGE_SIZE) as [Hshort|Hlong]; [left; auto|].
  right.
  destruct (readUInt32BE_reads buffer offset) as [(Hoff & Hfit & Htl) | (Hbad & Htl)];
    rewrite Htl; cbn [bind].
  2:{ left. unfold MIN_MESSAGE_SIZE, PRELUDE_SIZE, MESSAGE_CRC_SIZE in *. repeat split; auto; lia. }
  right.
  destruct (readUInt32BE_reads buffer (offset + 4)) as [(Hoff4 & Hfit4 & Hhl) | (Hbad & Hhl)];
    rewrite Hhl; cbn [bind].
  2:{ unfold MIN_MESSAGE_SIZE, PRELUDE_SIZE, MESSAGE_CRC_SIZE in *. lia. }
  pose proof (unsigned_read_range 4 _ _ _ _ readUInt32BE_reads Hhl) as Hhr.
  set (totalLength := be_value (take 4 (drop (Z.to_nat offset) buffer))) in *.
  set (headersLength := be_value (take 4 (drop (Z.to_nat (offset + 4)) buffer))) in *.
  exists totalLength, headersLength.
  do 4 (split; [first [assumption | reflexivity]|]). split; [exact Hhr|].
  destruct (Z.ltb_spec totalLength MIN_MESSAGE_SIZE) as [Hlo|Hlo]; cbn [orb].
  { left. split; [left; exact Hlo | reflexivity]. }
  destruct (Z.ltb_spec MAX_MESSAGE_SIZE totalLength) as [Hhi|Hhi].
  { left. split; [right; exact Hhi | reflexivity]. }
  right.
  destruct (Z.ltb_spec (len buffer - offset) totalLength) as [Hwait|Hhave].
  { left. repeat split; auto. }
  right. split; [split; assumption|]. split; [assumption|].
  fold (header_region buffer offset headersLength).
  fold (payload_region buffer offset totalLength headersLength).
  pose proof (parseHeaders_outcome (header_region buffer offset headersLength)) as Hh.
  destruct (parseHeaders (header_region buffer offset headersLength)) as [hs|e|]; cbn [bind].
  - right. exists hs. split; [reflexivity|].
    destruct (is_nested (hs !! content_type_key)); [left | right]; split; reflexivity.
  - left. exists e. auto.
  - contradiction.
Qed.

(** The body only calls itself on a payload shorter than the buffer. *)
Lemma parseFrame_body_ext r1 r2 (buffer : Buffer.t) offset :
  (forall p : Buffer.t, (length p < length buffer)%nat -> r1 p 0 = r2 p 0) ->
  parseFrame_body' r1 buffer offset = parseFrame_body' r2 buffer offset.
Proof.
  intros Hr.
  destruct (parseFrame_body_spec r1 buffer offset)
    as [(Ha & E1) | [(Ha & Hb & E1) | (tl & hl & Ha & Hb & Htl & Hhl & Hhr & E1)]];
  destruct (parseFrame_body_spec r2 buffer offset)
    as [(Hc & E2) | [(Hc & Hd & E2) | (tl' & hl' & Hc & Hd & Htl' & Hhl' & _ & E2)]];
  try congruence; try lia.
  rewrite Htl in Htl'. rewrite Hhl in Hhl'.
  injection Htl' as <-. injection Hhl' as <-.
  cbv zeta in E1, E2.
  destruct E1 as [(He & E1) | [(He & Hf & E1) | (He & Hf & E1)]];
  destruct E2 as [(Hg & E2) | [(Hg & Hh & E2) | (Hg & Hh & E2)]]; try congruence; try lia.
  destruct E1 as [(e & Hp1 & _ & E1) | (hs & Hp1 & E1)];
  destruct E2 as [(e' & Hp2 & _ & E2) | (hs' & Hp2 & E2)]; try congruence.
  rewrite Hp1 in Hp2. injection Hp2 as <-.
  destruct E1 as [(Hn & E1) | (Hn & E1)]; destruct E2 as [(Hn' & E2) | (Hn' & E2)];
    try congruence.
  rewrite E1, E2, Hr; [reflexivity|].
  apply payload_region_shorter; lia.
Qed.

Lemma parseFrame_rec_fuel n m (buffer : Buffer.t) offset :
  (length buffer < n)%nat -> (n <= m)%nat ->
  parseFrame_rec gunzipSync m buffer offset = parseFrame_rec gunzipSync n buffer offset.
Proof.
  revert m buffer offset.
  induction n as [|n IH]; intros m buffer offset Hn Hm; [lia|].
  destruct m as [|m]; [lia|]. cbn [parseFrame_rec].
  apply parseFrame_body_ext. intros p Hp. apply IH; lia.
Qed.

(** The unfolding equation of [parseFrame]: the recursive call on a nested
    payload is [parseFrame] itself. *)
Lemma parseFrame_eq (buffer : Buffer.t) offset :
  parseFrame' buffer offset = parseFrame_body' parseFrame' buffer offset.
Proof.
  unfold parseFrame at 1. cbn [parseFrame_rec].
  apply parseFrame_body_ext. intros p Hp. unfold parseFrame.
  apply parseFrame_rec_fuel; lia.
Qed.

(** Induction on the nesting of frames. *)
Lemma parseFrame_induction (P : Buffer.t -> Z -> outcome (option frame) -> Prop) :
  (forall recur buffer offset,
      (forall p : Buffer.t, (length p < length buffer)%nat -> P p 0 (recur p 0)) ->
      P buffer offset (parseFrame_body' recur buffer offset)) ->
  forall buffer offset, P buffer offset (parseFrame' buffer offset).
Proof.
  intros Hbody buffer.
  induction buffer as [buffer IH] using (induction_ltof1 _ (@length byte)).
  intros offset. rewrite parseFrame_eq. apply Hbody.
  intros p Hp. apply IH. exact Hp.
Qed.

End FrameFacts.

Section FrameResults.
Context {engine : Engine}.
Import Buffer BufferFacts.
Variable gunzipSync : Buffer.t -> option Buffer.t.

Lemma readUInt32BE_at (buffer : Buffer.t) offset v :
  readUInt32BE buffer offset = Return v -> v = totalLength_at buffer offset.
Proof.
  intros H. destruct (reads_inv _ _ _ _ _ _ readUInt32BE_reads H) as (_ & _ & ->).
  reflexivity.
Qed.

(** [parseFrame] ends: the nesting of frames is bounded by the buffer. *)
Lemma parseFrame_total (buffer : Buffer.t) offset :
  parseFrame gunzipSync buffer offset <> OutOfFuel.
Proof.
  apply (parseFrame_induction gunzipSync (fun _ _ r => r <> OutOfFuel)).
  clear buffer offset. intros recur buffer offset IH.
  destruct (parseFrame_body_spec gunzipSync recur buffer offset)
    as [(_ & ->) | [(_ & _ & ->) | (tl & hl & H0 & Hl & _ & _ & Hhr & E)]];
    try discriminate.
  cbv zeta in E.
  destruct E as [(_ & ->) | [(_ & _ & ->) | (_ & _ & E)]]; try discriminate.
  destruct E as [(e & _ & _ & ->) | (hs & _ & [(_ & ->) | (_ & ->)])]; try discriminate.
  specialize (IH (payload_region buffer offset tl hl)).
  destruct (recur (payload_region buffer offset tl hl) 0); cbn [bind]; try discriminate.
  apply IH. apply payload_region_shorter; lia.
Qed.

(** An invalid-length error, raised for the frame or for a frame nested in
    it, reports a length outside the legal bounds. *)
Lemma parseFrame_InvalidLength_bounds (buffer : Buffer.t) offset n :
  parseFrame gunzipSync buffer offset = Throw (InvalidLength n) ->
  n < MIN_MESSAGE_SIZE \/ MAX_MESSAGE_SIZE < n.
Proof.
  revert n.
  apply (parseFrame_induction gunzipSync
    (fun _ _ r => forall n, r = Throw (InvalidLength n) ->
                            n < MIN_MESSAGE_SIZE \/ MAX_MESSAGE_SIZE < n)).
  clear buffer offset. intros recur buffer offset IH n.
  destruct (parseFrame_body_spec gunzipSync recur buffer offset)
    as [(_ & ->) | [(_ & _ & ->) | (tl & hl & H0 & Hl & _ & _ & Hhr & E)]];
    try discriminate.
  cbv zeta in E.
  destruct E as [(Hout & ->) | [(_ & _ & ->) | (_ & _ & E)]]; try discriminate.
  { intros [= <-]. exact Hout. }
  destruct E as [(e & _ & He & ->) | (hs & _ & [(_ & ->) | (_ & ->)])]; try discriminate.
  - intros [= ->]. destruct He as [He | [He | (t & He & _)]]; discriminate.
  - specialize (IH (payload_region buffer offset tl hl)).
    destruct (recur (payload_region buffer offset tl hl) 0) as [inner|e|];
      cbn [bind]; try discriminate.
    intros [= ->]. apply IH; [|reflexivity]. apply payload_region_shorter; lia.
Qed.

(** What a returned frame says about the buffer it was read from. *)
Lemma parseFrame_Some (buffer : Buffer.t) offset fr :
  parseFrame gunzipSync buffer offset = Return (Some fr) ->
  let totalLength := totalLength_at buffer offset in
  let headersLength := headersLength_at buffer offset in
  let region := payload_region buffer offset totalLength headersLength in
  0 <= offset /\
  MIN_MESSAGE_SIZE <= totalLength <= MAX_MESSAGE_SIZE /\
  totalLength <= len buffer - offset /\
  0 <= headersLength < 2 ^ 32 /\
  consumed fr = totalLength /\
  parseHeaders (header_region buffer offset headersLength) = Return (headers fr) /\
  if is_nested (headers fr !! content_type_key)
  then payload fr = None /\ parseFrame gunzipSync region 0 = Return (nested fr)
  else payload fr = Some (try_gunzip gunzipSync region) /\ nested fr = None.
Proof.
  rewrite parseFrame_eq. intros H. cbv zeta.
  destruct (parseFrame_body_spec gunzipSync (parseFrame gunzipSync) buffer offset)
    as [(_ & E) | [(_ & _ & E) | (tl & hl & H0 & Hl & Htl & Hhl & Hhr & E)]];
    cbv zeta in E; try congruence.
  apply readUInt32BE_at in Htl, Hhl. unfold headersLength_at. rewrite <- Htl, <- Hhl.
  destruct E as [(_ & E) | [(_ & _ & E) | (Hb & Hfit & E)]]; try congruence.
  destruct E as [(e & _ & _ & E) | (hs & Hhs & [(Hn & E) | (Hn & E)])]; try congruence;
    rewrite E in H.
  - destruct (parseFrame gunzipSync (payload_region buffer offset tl hl) 0) as [inner| |];
      cbn [bind] in H; try discriminate.
    injection H as <-. cbn [headers payload nested consumed]. rewrite Hn. auto 10.
  - injection H as <-. cbn [headers payload nested consumed]. rewrite Hn. auto 10.
Qed.

End FrameResults.

(** ** The decoder loop *)

Section DecoderFacts.
Context {engine : Engine}.
Import Buffer BufferFacts.
Variable gunzipSync : Buffer.t -> option Buffer.t.

(** One turn of the loop, by the result of the extraction. *)
Lemma decode_turn_spec (buf : Buffer.t) :
  match parseFrame gunzipSync buf 0 with
  | Return (Some fr) =>
      decode_turn gunzipSync buf
      = Return (Continue (Yield (surfaced fr)) (slice_from buf (consumed fr)))
  | Return None => decode_turn gunzipSync buf = Return Break
  | Throw _ => decode_turn gunzipSync buf = Return (Continue Resync (slice_from buf 1))
  | OutOfFuel => False
  end.
Proof.
  pose proof (parseFrame_total gunzipSync buf 0) as Ht.
  unfold decode_turn, surfaced.
  destruct (parseFrame gunzipSync buf 0) as [[fr|]|e|]; cbn [bind try_catch]; auto.
  destruct (nested fr); reflexivity.
Qed.

Lemma decode_turn_returns (buf : Buffer.t) : exists t, decode_turn gunzipSync buf = Return t.
Proof.
  pose proof (decode_turn_spec buf) as H.
  destruct (parseFrame gunzipSync buf 0) as [[fr|]|e|]; [eauto..|contradiction].
Qed.

(** A turn that goes on has taken at least one byte off the buffer. *)
Lemma decode_turn_shrinks (buf rest : Buffer.t) ev :
  MIN_MESSAGE_SIZE <= len buf ->
  decode_turn gunzipSync buf = Return (Continue ev rest) ->
  (length rest < length buf)%nat.
Proof.
  intros Hl H. pose proof (decode_turn_spec buf) as Hs.
  destruct (parseFrame gunzipSync buf 0) as [[fr|]|e|] eqn:Hp; [| | |contradiction];
    rewrite Hs in H; try discriminate; injection H as _ <-.
  - apply parseFrame_Some in Hp. cbv zeta in Hp.
    destruct Hp as (_ & Hb & Hfit & _ & Hc & _).
    rewrite slice_from_drop by (unfold MIN_MESSAGE_SIZE, PRELUDE_SIZE, MESSAGE_CRC_SIZE in *; lia).
    rewrite length_drop. unfold MIN_MESSAGE_SIZE, PRELUDE_SIZE, MESSAGE_CRC_SIZE, len in *. lia.
  - rewrite slice_from_drop by lia. rewrite length_drop.
    unfold MIN_MESSAGE_SIZE, PRELUDE_SIZE, MESSAGE_CRC_SIZE, len in *. lia.
Qed.

(** The loop ends within the fuel [decode] gives it, and more fuel changes
    nothing. *)
Lemma decode_loop_fuel n m (buf : Buffer.t) :
  (length buf <= n)%nat -> (n <= m)%nat ->
  decode_loop gunzipSync m buf = decode_loop gunzipSync n buf
  /\ exists evs final, decode_loop gunzipSync n buf = Return (evs, final).
Proof.
  revert m buf.
  induction n as [|n IH]; intros m buf Hn Hm.
  - assert (len buf = 0) as Hz by (unfold len; lia).
    destruct m; cbn [decode_loop]; rewrite Hz; simpl; eauto.
  - destruct m as [|m]; [lia|]. cbn [decode_loop].
    destruct (Z.leb_spec MIN_MESSAGE_SIZE (len buf)) as [Hl|Hl]; [|eauto].
    destruct (decode_turn_returns buf) as [[|ev rest] Ht]; rewrite Ht; cbn [bind]; [eauto|].
    pose proof (decode_turn_shrinks _ _ _ Hl Ht) as Hs.
    destruct (IH m rest) as (-> & evs & final & ->); [lia..|].
    cbn [bind]. eauto.
Qed.

(** The unfolding equation of the loop, on the fuel of [decode]. *)
Lemma decode_loop_eq (buf : Buffer.t) :
  decode_loop gunzipSync (length buf) buf =
  if MIN_MESSAGE_SIZE <=? len buf then
    let* t := decode_turn gunzipSync buf in
    match t with
    | Break => Return ([], buf)
    | Continue ev rest =>
        let* '(evs, final) := decode_loop gunzipSync (length rest) rest in
        Return (ev :: evs, final)
    end
  else Return ([], buf).
Proof.
  destruct (Z.leb_spec MIN_MESSAGE_SIZE (len buf)) as [Hl|Hl].
  - destruct (length buf) as [|n] eqn:Hn.
    { unfold MIN_MESSAGE_SIZE, PRELUDE_SIZE, MESSAGE_CRC_SIZE, len in Hl. lia. }
    cbn [decode_loop].
    destruct (Z.leb_spec MIN_MESSAGE_SIZE (len buf)); [|lia].
    destruct (decode_turn_returns buf) as [[|ev rest] Ht]; rewrite Ht; cbn [bind]; [reflexivity|].
    pose proof (decode_turn_shrinks _ _ _ Hl Ht) as Hs.
    destruct (decode_loop_fuel (length rest) n rest) as (-> & _); [lia..|]. reflexivity.
  - destruct (length buf); cbn [decode_loop];
      destruct (Z.leb_spec MIN_MESSAGE_SIZE (len buf)); try lia; reflexivity.
Qed.

Lemma decode_loop_returns (buf : Buffer.t) :
  exists evs final, decode_loop gunzipSync (length buf) buf = Return (evs, final).
Proof. destruct (decode_loop_fuel (length buf) (length buf) buf) as (_ & H); auto. Qed.

Lemma decode_trace_returns d : exists evs d', decode_trace gunzipSync d = Return (evs, d').
Proof.
  unfold decode_trace. destruct (decode_loop_returns (buffer d)) as (evs & final & ->).
  cbn [bind]. eauto.
Qed.

Lemma decode_returns d : exists frames d', decode gunzipSync d = Return (frames, d').
Proof.
  unfold decode. destruct (decode_trace_returns d) as (evs & d' & ->).
  cbn [bind]. eauto.
Qed.

End DecoderFacts.

(** ** The length check of parseFrame *)

Section LengthCheck.
Context {engine : Engine}.
Import Buffer BufferFacts.
Variable gunzipSync : Buffer.t -> option Buffer.t.

(** C2, amended. With a non-negative offset, [parseFrame] throws the
    invalid-length error for the declared total length exactly when at least
    16 bytes are available and that length is below 16 (the prelude and the
    trailing checksum) or above 16 MiB; the lower bound is 16, not 12. Any
    invalid-length error it throws reports a length outside these bounds,
    and with fewer than 16 bytes it returns "not enough data" instead. *)
Theorem parseFrame_invalid_length (buffer : Buffer.t) (offset : Z) :
  0 <= offset ->
  let totalLength := totalLength_at buffer offset in
  (parseFrame gunzipSync buffer offset = Throw (InvalidLength totalLength)
   <-> 16 <= len buffer - offset /\ (totalLength < 16 \/ 16 * 1024 * 1024 < totalLength))
  /\ (forall n, parseFrame gunzipSync buffer offset = Throw (InvalidLength n) ->
                n < 16 \/ 16 * 1024 * 1024 < n)
  /\ (len buffer - offset < 16 -> parseFrame gunzipSync buffer offset = Return None).
Proof.
  intros Hoff. cbv zeta.
  change 16 with MIN_MESSAGE_SIZE. change (MIN_MESSAGE_SIZE * 1024 * 1024) with MAX_MESSAGE_SIZE.
  split; [|split].
  - split.
    + intros H. pose proof (parseFrame_InvalidLength_bounds _ _ _ _ H) as Hb.
      split; [|exact Hb].
      rewrite parseFrame_eq in H.
      destruct (parseFrame_body_spec gunzipSync (parseFrame gunzipSync) buffer offset)
        as [(_ & E) | [(_ & _ & E) | (tl & hl & _ & Hl & _)]]; [congruence..|exact Hl].
    + intros (Hl & Hb). rewrite parseFrame_eq.
      destruct (parseFrame_body_spec gunzipSync (parseFrame gunzipSync) buffer offset)
        as [(? & E) | [(? & ? & E) | (tl & hl & _ & _ & Htl & _ & _ & E)]]; [lia..|].
      apply readUInt32BE_at in Htl. subst tl. cbv zeta in E.
      destruct E as [(_ & E) | [(? & _) | (? & _)]]; [exact E | lia..].
  - apply parseFrame_InvalidLength_bounds.
  - intros Hs. rewrite parseFrame_eq.
    destruct (parseFrame_body_spec gunzipSync (parseFrame gunzipSync) buffer offset)
      as [(_ & E) | [(? & _) | (tl & hl & _ & ? & _)]]; [exact E | lia..].
Qed.

End LengthCheck.

Section LengthCheckExamples.
#[local] Existing Instance example_engine.

Lemma parseFrame_invalid_length_witness :
  parseFrame no_gunzip declares_12 0 = Throw (InvalidLength 12).
Proof.
  apply (proj1 (parseFrame_invalid_length no_gunzip declares_12 0 ltac:(lia))).
  vm_compute. split; [discriminate | left; reflexivity].
Defined.

(** C2 as stated fails: 12 lies within the bounds 12 <= totalLength <=
    16 MiB that the specification states, and the frame codec rejects it
    with the invalid-length error. *)
Lemma parseFrame_rejects_12 :
  12 <= totalLength_at declares_12 0 <= 16 * 1024 * 1024
  /\ parseFrame no_gunzip declares_12 0 = Throw (InvalidLength (totalLength_at declares_12 0)).
Proof. vm_compute. split; [split; discriminate | reflexivity]. Qed.

End LengthCheckExamples.

(** ** What one call of decode does to the buffer *)

Section DecodeCall.
Context {engine : Engine}.
Import Buffer BufferFacts.
Variable gunzipSync : Buffer.t -> option Buffer.t.

Lemma surfaced_consumed_le (buf : Buffer.t) fr :
  parseFrame gunzipSync buf 0 = Return (Some fr) ->
  consumed (surfaced fr) <= len buf.
Proof.
  intros H. apply parseFrame_Some in H. cbv zeta in H.
  destruct H as (_ & _ & Hfit & Hhr & Hc & _ & Hn).
  unfold surfaced. destruct (nested fr) as [inner|] eqn:Hi; [|lia].
  destruct (is_nested (headers fr !! content_type_key)); [|destruct Hn; congruence].
  destruct Hn as (_ & Hn). apply parseFrame_Some in Hn. cbv zeta in Hn.
  destruct Hn as (_ & _ & Hfit' & _ & Hc' & _).
  match type of Hfit' with _ <= len ?r - 0 => pose proof (slice_length buf
    (0 + PRELUDE_SIZE + headersLength_at buf 0)
    (0 + totalLength_at buf 0 - MESSAGE_CRC_SIZE)) as Hs; fold (payload_region buf 0
    (totalLength_at buf 0) (headersLength_at buf 0)) in Hs end.
  pose proof (clamp_range buf (0 + PRELUDE_SIZE + headersLength_at buf 0)).
  unfold len in *. lia.
Qed.

(** One turn of the loop and the buffer: the cases of the extraction. *)
Lemma decode_turn_cases (buf : Buffer.t) :
  match parseFrame gunzipSync buf 0 with
  | Return (Some fr) =>
      consumed fr = totalLength_at buf 0
      /\ consumed fr <= len buf
      /\ consumed (surfaced fr) <= len buf
      /\ decode_turn gunzipSync buf
         = Return (Continue (Yield (surfaced fr)) (drop (Z.to_nat (consumed fr)) buf))
      /\ len (drop (Z.to_nat (consumed fr)) buf) = len buf - consumed fr
  | Return None =>
      decode_turn gunzipSync buf = Return Break
      /\ decode_loop gunzipSync (length buf) buf = Return ([], buf)
  | Throw _ =>
      decode_turn gunzipSync buf = Return (Continue Resync (drop 1 buf))
      /\ len (drop 1 buf) = len buf - 1
  | OutOfFuel => False
  end.
Proof.
  pose proof (decode_turn_spec gunzipSync buf) as Ht.
  pose proof (decode_loop_eq gunzipSync buf) as Hl.
  destruct (parseFrame gunzipSync buf 0) as [[fr|]|e|] eqn:Hp; [| | |exact Ht].
  - pose proof (surfaced_consumed_le _ _ Hp) as Hs.
    apply parseFrame_Some in Hp. cbv zeta in Hp.
    destruct Hp as (_ & Hb & Hfit & _ & Hc & _).
    unfold MIN_MESSAGE_SIZE, PRELUDE_SIZE, MESSAGE_CRC_SIZE in Hb.
    rewrite slice_from_drop in Ht by lia.
    repeat split; auto; try lia.
    unfold len in *. rewrite length_drop. lia.
  - split; [exact Ht|]. rewrite Hl, Ht. cbn [bind].
    destruct (MIN_MESSAGE_SIZE <=? len buf); reflexivity.
  - rewrite slice_from_drop in Ht by lia. split; [exact Ht|].
    rewrite parseFrame_eq in Hp.
    destruct (parseFrame_body_spec gunzipSync (parseFrame gunzipSync) buf 0)
      as [(_ & E) | [(? & ? & E) | (tl & hl & _ & Hmin & _)]]; [congruence | lia |].
    unfold MIN_MESSAGE_SIZE, PRELUDE_SIZE, MESSAGE_CRC_SIZE, len in *.
    rewrite length_drop. lia.
Qed.

(** The frames of a call are the frames surfaced from successful
    extractions, and the buffer left is an end of the buffer it started with. *)
Lemma decode_loop_trace fuel (buf : Buffer.t) evs final :
  decode_loop gunzipSync fuel buf = Return (evs, final) ->
  Forall (fun f => exists b fr, parseFrame gunzipSync b 0 = Return (Some fr) /\ f = surfaced fr)
         (yielded evs)
  /\ exists lost, buf = lost ++ final.
Proof.
  revert buf evs final.
  induction fuel as [|fuel IH]; intros buf evs final; cbn [decode_loop].
  - destruct (MIN_MESSAGE_SIZE <=? len buf); [discriminate|].
    intros [= <- <-]. split; [constructor | exists []; reflexivity].
  - destruct (MIN_MESSAGE_SIZE <=? len buf);
      [|intros [= <- <-]; split; [constructor | exists []; reflexivity]].
    pose proof (decode_turn_cases buf) as Ht.
    destruct (parseFrame gunzipSync buf 0) as [[fr|]|e|] eqn:Hp; [| | |contradiction].
    + destruct Ht as (_ & _ & _ & -> & _). cbn [bind].
      destruct (decode_loop gunzipSync fuel _) as [[evs' final']| |] eqn:Hl;
        cbn [bind]; try discriminate.
      intros [= <- <-]. destruct (IH _ _ _ Hl) as (Hy & lost & Hlost). split.
      * cbn. constructor; eauto.
      * exists (take (Z.to_nat (consumed fr)) buf ++ lost).
        rewrite <- app_assoc, <- Hlost. symmetry. apply take_drop.
    + destruct Ht as (-> & _). cbn [bind]. intros [= <- <-].
      split; [constructor | exists []; reflexivity].
    + destruct Ht as (-> & _). cbn [bind].
      destruct (decode_loop gunzipSync fuel _) as [[evs' final']| |] eqn:Hl;
        cbn [bind]; try discriminate.
      intros [= <- <-]. destruct (IH _ _ _ Hl) as (Hy & lost & Hlost). split.
      * cbn. exact Hy.
      * exists (take 1 buf ++ lost).
        rewrite <- app_assoc, <- Hlost. symmetry. apply take_drop.
Qed.

(** C5. Within one call of [decode], at every turn of its loop: a frame is
    yielded only when the extraction succeeds, and then the buffer holds at
    least the declared total length of the extracted frame (and of the frame
    yielded for it); the buffer is advanced by [consumed], which is that
    declared total length, and the call goes on from there; on an exception
    the buffer is advanced by one byte and the call goes on; and when the
    extraction returns "not enough data" the buffer is left as it is and the
    call yields nothing more. *)
Theorem decode_turn_accounting (buf : Buffer.t) :
  match parseFrame gunzipSync buf 0 with
  | Return (Some fr) =>
      let rest := drop (Z.to_nat (consumed fr)) buf in
      consumed fr = totalLength_at buf 0
      /\ consumed fr <= len buf
      /\ consumed (surfaced fr) <= len buf
      /\ len rest = len buf - consumed fr
      /\ decode_loop gunzipSync (length buf) buf
         = (let* '(evs, final) := decode_loop gunzipSync (length rest) rest in
            Return (Yield (surfaced fr) :: evs, final))
  | Return None =>
      decode_loop gunzipSync (length buf) buf = Return ([], buf)
  | Throw _ =>
      let rest := drop 1 buf in
      len rest = len buf - 1
      /\ decode_loop gunzipSync (length buf) buf
         = (let* '(evs, final) := decode_loop gunzipSync (length rest) rest in
            Return (Resync :: evs, final))
  | OutOfFuel => False
  end.
Proof.
  pose proof (decode_turn_cases buf) as Ht.
  pose proof (decode_loop_eq gunzipSync buf) as Hl.
  destruct (parseFrame gunzipSync buf 0) as [[fr|]|e|] eqn:Hp; [| | |exact Ht]; cbv zeta.
  - destruct Ht as (Hc & Hfit & Hs & Ht & Hr). repeat split; auto.
    rewrite Hl, Ht. cbn [bind].
    apply parseFrame_Some in Hp. cbv zeta in Hp. destruct Hp as (_ & Hb & _).
    destruct (Z.leb_spec MIN_MESSAGE_SIZE (len buf)); [reflexivity | lia].
  - apply Ht.
  - destruct Ht as (Ht & Hr). split; [exact Hr|].
    rewrite Hl, Ht. cbn [bind].
    destruct (Z.leb_spec MIN_MESSAGE_SIZE (len buf)) as [|Hshort]; [reflexivity|].
    rewrite parseFrame_eq in Hp.
    destruct (parseFrame_body_spec gunzipSync (parseFrame gunzipSync) buf 0)
      as [(_ & E) | [(? & ? & E) | (tl & hl & _ & Hmin & _)]]; [congruence | lia | lia].
Qed.

End DecodeCall.

(** ** Nested frames at the decoder boundary *)

Section NestedFrames.
Context {engine : Engine}.
Import Buffer BufferFacts.
Variable gunzipSync : Buffer.t -> option Buffer.t.

Lemma is_nested_marker (hs : headers_t) :
  hs !! content_type_key = Some (VString nested_marker) ->
  is_nested (hs !! content_type_key) = true.
Proof. intros ->. cbn [is_nested]. apply bool_decide_eq_true. reflexivity. Qed.


(** C6, amended. When the [:content-type] header of an extracted frame is
    the nested-stream marker, the frame has no payload and carries the
    result of extracting a frame from its payload region; when that
    extraction returns a frame, [decode] yields this inner frame in place of
    the outer one, as it is (one level is unwrapped); when it returns "not
    enough data", the outer frame itself is yielded. *)
Theorem decode_unwraps_nested (buf : Buffer.t) (fr : frame) :
  parseFrame gunzipSync buf 0 = Return (Some fr) ->
  headers fr !! content_type_key = Some (VString nested_marker) ->
  let region := payload_region buf 0 (totalLength_at buf 0) (headersLength_at buf 0) in
  let rest := drop (Z.to_nat (consumed fr)) buf in
  payload fr = None
  /\ parseFrame gunzipSync region 0 = Return (nested fr)
  /\ (forall inner, parseFrame gunzipSync region 0 = Return (Some inner) ->
        decode_turn gunzipSync buf = Return (Continue (Yield inner) rest))
  /\ (parseFrame gunzipSync region 0 = Return None ->
        decode_turn gunzipSync buf = Return (Continue (Yield fr) rest)).
Proof.
  intros Hp Hm. cbv zeta.
  pose proof (decode_turn_cases gunzipSync buf) as Ht. rewrite Hp in Ht.
  destruct Ht as (_ & _ & _ & Ht & _).
  apply parseFrame_Some in Hp. cbv zeta in Hp.
  destruct Hp as (_ & _ & _ & _ & _ & _ & Hn).
  rewrite (is_nested_marker _ Hm) in Hn. destruct Hn as (Hpay & Hin).
  repeat split; auto.
  - intros inner Hi. rewrite Hi in Hin. injection Hin as Hin.
    rewrite Ht. unfold surfaced. rewrite <- Hin. reflexivity.
  - intros Hi. rewrite Hi in Hin. injection Hin as Hin.
    rewrite Ht. unfold surfaced. rewrite <- Hin. reflexivity.
Qed.





End NestedFrames.

Section NestedFramesExamples.
#[local] Existing Instance example_engine.

Lemma decode_unwraps_nested_witness :
  exists inner,
    decode_turn no_gunzip wrapped_frame = Return (Continue (Yield inner) [])
    /\ headers inner !! event_type_key = Some (VString (js "end"))
    /\ payload inner = Some (Buffer.of_string "hi").
Proof.
  assert (exists fr, parseFrame no_gunzip wrapped_frame 0 = Return (Some fr)
                     /\ headers fr !! content_type_key = Some (VString nested_marker)
                     /\ consumed fr = Buffer.len wrapped_frame) as (fr & Hp & Hm & Hc).
  { eexists. split; [vm_compute; reflexivity|]. split; vm_compute; reflexivity. }
  assert (exists inner,
             parseFrame no_gunzip
               (payload_region wrapped_frame 0 (totalLength_at wrapped_frame 0)
                  (headersLength_at wrapped_frame 0)) 0 = Return (Some inner)
             /\ headers inner !! event_type_key = Some (VString (js "end"))
             /\ payload inner = Some (Buffer.of_string "hi")) as (inner & Hi & Ht & Hpay).
  { eexists. split; [vm_compute; reflexivity|]. split; vm_compute; reflexivity. }
  exists inner.
  destruct (decode_unwraps_nested no_gunzip wrapped_frame fr Hp Hm) as (_ & _ & Hy & _).
  split; [|split; assumption].
  rewrite (Hy inner Hi), Hc. unfold Buffer.len. rewrite Nat2Z.id, drop_all. reflexivity.
Defined.


(** C6 as stated fails: the frame carries the marker, and [decode] yields
    the frame itself, not an inner frame. *)
Lemma hollow_frame_not_unwrapped :
  exists fr,
    parseFrame no_gunzip hollow_frame 0 = Return (Some fr)
    /\ headers fr !! content_type_key = Some (VString nested_marker)
    /\ decode_turn no_gunzip hollow_frame = Return (Continue (Yield fr) []).
Proof.
  eexists. split; [vm_compute; reflexivity|]. split; vm_compute; reflexivity.
Qed.


End NestedFramesExamples.

(** ** Exceptions stay inside decode *)

Section NoException.
Context {engine : Engine}.
Import Buffer BufferFacts.
Variable gunzipSync : Buffer.t -> option Buffer.t.

(** The exceptions of [parseFrame], of the frame or of a frame nested in
    it: an invalid length, outside the legal bounds, or a header error. *)
Lemma parseFrame_errors (buffer : Buffer.t) offset e :
  parseFrame gunzipSync buffer offset = Throw e ->
  (exists n, e = InvalidLength n /\ (n < MIN_MESSAGE_SIZE \/ MAX_MESSAGE_SIZE < n))
  \/ header_error e.
Proof.
  revert e.
  apply (parseFrame_induction gunzipSync
    (fun _ _ r => forall e, r = Throw e ->
       (exists n, e = InvalidLength n /\ (n < MIN_MESSAGE_SIZE \/ MAX_MESSAGE_SIZE < n))
       \/ header_error e)).
  clear buffer offset. intros recur buffer offset IH e.
  destruct (parseFrame_body_spec gunzipSync recur buffer offset)
    as [(_ & ->) | [(_ & _ & ->) | (tl & hl & H0 & Hl & _ & _ & Hhr & E)]];
    try discriminate.
  { intros [= <-]. right. left. reflexivity. }
  cbv zeta in E.
  destruct E as [(Hout & ->) | [(_ & _ & ->) | (_ & _ & E)]]; try discriminate.
  { intros [= <-]. left. eauto. }
  destruct E as [(e' & _ & He & ->) | (hs & _ & [(_ & ->) | (_ & ->)])]; try discriminate.
  - intros [= <-]. right. exact He.
  - specialize (IH (payload_region buffer offset tl hl)).
    destruct (recur (payload_region buffer offset tl hl) 0) as [inner|e'|];
      cbn [bind]; try discriminate.
    intros [= <-]. apply IH; [|reflexivity]. apply payload_region_shorter; lia.
Qed.

Lemma session_returns (calls : list call) (d : EventStreamDecoder) :
  exists outs d', session gunzipSync calls d = Return (outs, d').
Proof.
  revert d. induction calls as [|[data|] calls IH]; intros d; cbn [session].
  - eauto.
  - apply IH.
  - destruct (decode_returns gunzipSync d) as (frames & d' & ->). cbn [bind].
    destruct (IH d') as (outs & final & ->). cbn [bind]. eauto.
Qed.

(** C10. Whatever is fed and whenever [decode] is called, every call
    returns: no exception reaches the caller. An extraction that fails, with
    an invalid length (below 16 or above 16 MiB), an unknown header type (a
    tag outside 0..9), a read outside the region, or the [TypeError] of an
    assignment to a header name that cannot be written, is caught in
    [decode] and answered by dropping one byte; and a call only ever removes
    bytes from the front of the buffer. *)
Theorem decoder_never_throws :
  (forall (calls : list call) (d : EventStreamDecoder),
      exists outs d', session gunzipSync calls d = Return (outs, d'))
  /\ (forall (buf : Buffer.t) (e : error),
        parseFrame gunzipSync buf 0 = Throw e ->
        ((exists n, e = InvalidLength n /\ (n < 16 \/ 16 * 1024 * 1024 < n))
         \/ (exists t, e = UnknownHeaderType t /\ (t < 0 \/ 9 < t))
         \/ e = RangeError \/ e = TypeError)
        /\ decode_turn gunzipSync buf = Return (Continue Resync (drop 1 buf)))
  /\ (forall (d d' : EventStreamDecoder) (frames : list frame),
        decode gunzipSync d = Return (frames, d') ->
        exists lost, buffer d = lost ++ buffer d').
Proof.
  split; [exact session_returns|]. split.
  - intros buf e Hp. split.
    + destruct (parseFrame_errors _ _ _ Hp) as [He | [-> | [-> | He]]]; auto.
    + pose proof (decode_turn_cases gunzipSync buf) as Ht. rewrite Hp in Ht. apply Ht.
  - intros d d' frames. unfold decode, decode_trace. intros H.
    destruct (decode_loop gunzipSync (length (buffer d)) (buffer d)) as [[evs final]| |] eqn:Hl;
      cbn [bind] in H; try discriminate.
    injection H as _ <-. apply decode_loop_trace in Hl. apply Hl.
Qed.

End NoException.

Section NoExceptionExamples.
#[local] Existing Instance example_engine.

(** A frame whose records are named [__proto__] (three bytes, tag 6) and
    [length]: the second assignment throws, and [decode] skips one byte. *)
Lemma decoder_never_throws_witness :
  parseFrame no_gunzip polluted_frame 0 = Throw TypeError
  /\ decode_turn no_gunzip polluted_frame = Return (Continue Resync (drop 1 polluted_frame))
  /\ decode_turn no_gunzip declares_12 = Return (Continue Resync (drop 1 declares_12)).
Proof.
  assert (parseFrame no_gunzip polluted_frame 0 = Throw TypeError) as Hp
    by (vm_compute; reflexivity).
  split; [exact Hp|]. split.
  - exact (proj2 (proj1 (proj2 (decoder_never_throws no_gunzip)) polluted_frame TypeError Hp)).
  - apply (proj1 (proj2 (decoder_never_throws no_gunzip)) declares_12 (InvalidLength 12)).
    vm_compute. reflexivity.
Defined.

(** The 42 bytes of that frame are well formed as a frame, and [decode]
    yields nothing from them: after the skipped byte the next four bytes
    declare a length that is legal and not there. *)
Example polluted_frame_lost :
  Buffer.len polluted_frame = 42
  /\ totalLength_at polluted_frame 0 = 42
  /\ headersLength_at polluted_frame 0 = 24
  /\ decode no_gunzip (feed new_decoder polluted_frame)
     = Return ([], {| buffer := drop 1 polluted_frame |}).
Proof. repeat split; vm_compute; reflexivity. Qed.

(** The codec does not accept it as a frame. *)
Example polluted_frame_not_accepted :
  forall fr, parseFrame no_gunzip polluted_frame 0 <> Return (Some fr).
Proof. intros fr H. vm_compute in H. discriminate H. Qed.

End NoExceptionExamples.

(** ** One corrupt byte before a frame *)

Section CorruptByte.
Context {engine : Engine}.
Import Buffer BufferFacts.
Variable gunzipSync : Buffer.t -> option Buffer.t.

(** The length declared at a byte put before a frame: that byte on top of
    the frame's own declared length, shifted by one byte. *)
Lemma totalLength_at_cons (c : byte) (f : Buffer.t) :
  4 <= len f ->
  totalLength_at (c :: f) 0 = byte_val c * 2 ^ 24 + totalLength_at f 0 / 256.
Proof.
  intros Hl. unfold totalLength_at.
  destruct f as [|f0 [|f1 [|f2 [|f3 f]]]]; try (unfold len in Hl; simpl in Hl; lia).
  change (Z.to_nat 0) with O. unfold be_value. cbn [drop take fold_left].
  rewrite take_0. cbn [fold_left].
  pose proof (byte_val_range f3). change (2 ^ 24) with 16777216.
  match goal with |- _ = _ + ?n / 256 =>
    replace n with (((byte_val f0 * 256 + byte_val f1) * 256 + byte_val f2) * 256 + byte_val f3)
      by lia
  end.
  rewrite Z.div_add_l by lia. rewrite (Z.div_small (byte_val f3)) by lia. lia.
Qed.

(** C3, amended. Let [f] be the encoding of one frame that the codec
    accepts, and [c] a byte fed before it. When the extraction at [c] fails,
    [decode] skips exactly that one byte and then yields the frame of [f];
    the extraction at [c] fails, with the invalid-length error, whenever
    [c] is at least 2, or [c] is 0 and [f] is shorter than 4096 bytes, or
    [c] is 1 and [f] is at least 256 bytes long. When the extraction at [c]
    does not fail, no byte is skipped at [c]: either it finds too few bytes
    for the length that [c] and the three bytes after it declare, and
    [decode] yields nothing and keeps all bytes, or it returns a frame, and
    [decode] yields that frame first. *)
Theorem resync_after_corrupt_byte (c : byte) (f : Buffer.t) (fr : frame) :
  parseFrame gunzipSync f 0 = Return (Some fr) ->
  consumed fr = len f ->
  ((2 <= byte_val c \/ (byte_val c = 0 /\ len f < 4096) \/ (byte_val c = 1 /\ 256 <= len f)) ->
   exists n, parseFrame gunzipSync (c :: f) 0 = Throw (InvalidLength n))
  /\ (forall e, parseFrame gunzipSync (c :: f) 0 = Throw e ->
        decode_trace gunzipSync (feed new_decoder (c :: f))
        = Return ([Resync; Yield (surfaced fr)], new_decoder))
  /\ (parseFrame gunzipSync (c :: f) 0 = Return None ->
        decode_trace gunzipSync (feed new_decoder (c :: f))
        = Return ([], feed new_decoder (c :: f)))
  /\ (forall fr', parseFrame gunzipSync (c :: f) 0 = Return (Some fr') ->
        exists evs d',
          decode_trace gunzipSync (feed new_decoder (c :: f))
          = Return (Yield (surfaced fr') :: evs, d')).
Proof.
  intros Hp Hc.
  pose proof (parseFrame_Some _ _ _ _ Hp) as Hs. cbv zeta in Hs.
  destruct Hs as (_ & Hb & _ & _ & Hc' & _). rewrite Hc in Hc'.
  unfold MIN_MESSAGE_SIZE, MAX_MESSAGE_SIZE, PRELUDE_SIZE, MESSAGE_CRC_SIZE in Hb.
  split; [|split; [|split]].
  - intros Hcond. exists (totalLength_at (c :: f) 0).
    rewrite parseFrame_eq.
    destruct (parseFrame_body_spec gunzipSync (parseFrame gunzipSync) (c :: f) 0)
      as [(Hshort & _) | [(_ & ? & _) | (tl & hl & _ & _ & Htl & _ & _ & E)]].
    { rewrite len_cons in Hshort.
      unfold MIN_MESSAGE_SIZE, PRELUDE_SIZE, MESSAGE_CRC_SIZE in Hshort. lia. }
    { lia. }
    apply readUInt32BE_at in Htl. subst tl. cbv zeta in E.
    pose proof (byte_val_range c) as Hcr.
    assert (totalLength_at (c :: f) 0 < 16 \/ 16777216 < totalLength_at (c :: f) 0) as Hout.
    { rewrite totalLength_at_cons by lia. rewrite <- Hc'.
      change (2 ^ 24) with 16777216.
      assert (0 <= len f / 256) by (apply Z.div_pos; lia).
      destruct Hcond as [H2 | [(H0 & Hlt) | (H1 & Hge)]].
      - right. lia.
      - left. rewrite H0. simpl. apply Z.div_lt_upper_bound; lia.
      - right. rewrite H1.
        assert (1 <= len f / 256) by (apply Z.div_le_lower_bound; lia). lia. }
    unfold MIN_MESSAGE_SIZE, MAX_MESSAGE_SIZE, PRELUDE_SIZE, MESSAGE_CRC_SIZE in E.
    destruct E as [(_ & E) | [(? & _) | (? & _)]]; [exact E | lia..].
  - intros e He. unfold decode_trace.
    change (buffer (feed new_decoder (c :: f))) with (c :: f).
    rewrite decode_loop_eq.
    destruct (Z.leb_spec MIN_MESSAGE_SIZE (len (c :: f))) as [_|Hshort].
    2:{ rewrite len_cons in Hshort.
        unfold MIN_MESSAGE_SIZE, PRELUDE_SIZE, MESSAGE_CRC_SIZE in Hshort. lia. }
    pose proof (decode_turn_cases gunzipSync (c :: f)) as Ht. rewrite He in Ht.
    destruct Ht as (-> & _). cbn [bind]. change (drop 1 (c :: f)) with f.
    rewrite decode_loop_eq.
    destruct (Z.leb_spec MIN_MESSAGE_SIZE (len f)) as [_|Hshort].
    2:{ unfold MIN_MESSAGE_SIZE, PRELUDE_SIZE, MESSAGE_CRC_SIZE in Hshort. lia. }
    pose proof (decode_turn_cases gunzipSync f) as Ht. rewrite Hp in Ht.
    destruct Ht as (_ & _ & _ & -> & _). cbn [bind].
    rewrite Hc. unfold len. rewrite Nat2Z.id, drop_all. reflexivity.
  - intros Hn. unfold decode_trace.
    change (buffer (feed new_decoder (c :: f))) with (c :: f).
    pose proof (decode_turn_cases gunzipSync (c :: f)) as Ht. rewrite Hn in Ht.
    destruct Ht as (_ & ->). reflexivity.
  - intros fr' Hs. unfold decode_trace.
    change (buffer (feed new_decoder (c :: f))) with (c :: f).
    rewrite decode_loop_eq.
    destruct (Z.leb_spec MIN_MESSAGE_SIZE (len (c :: f))) as [_|Hshort].
    2:{ rewrite len_cons in Hshort.
        unfold MIN_MESSAGE_SIZE, PRELUDE_SIZE, MESSAGE_CRC_SIZE in Hshort. lia. }
    pose proof (decode_turn_cases gunzipSync (c :: f)) as Ht. rewrite Hs in Ht.
    destruct Ht as (_ & _ & _ & -> & _). cbn [bind].
    destruct (decode_loop_returns gunzipSync (drop (Z.to_nat (consumed fr')) (c :: f)))
      as (evs & final & ->).
    cbn [bind]. eauto.
Qed.

End CorruptByte.

Section CorruptByteExamples.
#[local] Existing Instance example_engine.

Lemma resync_after_corrupt_byte_witness :
  exists fr,
    parseFrame no_gunzip event_frame 0 = Return (Some fr)
    /\ decode_trace no_gunzip (feed new_decoder ("007"%byte :: event_frame))
       = Return ([Resync; Yield fr], new_decoder)
    /\ decode_trace no_gunzip (feed new_decoder ("001"%byte :: event_frame))
       = Return ([], feed new_decoder ("001"%byte :: event_frame)).
Proof.
  assert (exists fr, parseFrame no_gunzip event_frame 0 = Return (Some fr)
                     /\ consumed fr = Buffer.len event_frame
                     /\ surfaced fr = fr) as (fr & Hp & Hc & Hs).
  { eexists. split; [vm_compute; reflexivity|]. split; vm_compute; reflexivity. }
  exists fr. split; [exact Hp|]. split.
  - destruct (resync_after_corrupt_byte no_gunzip "007"%byte event_frame fr Hp Hc)
      as (Hthrow & Htrace & _).
    destruct Hthrow as (n & Hn); [left; vm_compute; discriminate|].
    rewrite (Htrace _ Hn), Hs. reflexivity.
  - destruct (resync_after_corrupt_byte no_gunzip "001"%byte event_frame fr Hp Hc)
      as (_ & _ & Hwait & _).
    apply Hwait. vm_compute. reflexivity.
Defined.

(** C3 as stated fails. [empty_frame] is a well-formed frame: the codec
    accepts it as one frame and both its checksums are right. Fed after the
    byte 1, it is not yielded and no byte is skipped: the byte 1 and the
    first three bytes of the frame declare a length of 16 MiB, which is
    legal, and [decode] waits for that many bytes. *)
Lemma corrupt_byte_stalls :
  (exists fr, parseFrame no_gunzip empty_frame 0 = Return (Some fr)
              /\ consumed fr = Buffer.len empty_frame)
  /\ crc32c (take 8 empty_frame) = totalLength_at empty_frame 8
  /\ crc32c (take 12 empty_frame) = totalLength_at empty_frame 12
  /\ decode_trace no_gunzip (feed new_decoder ("001"%byte :: empty_frame))
     = Return ([], feed new_decoder ("001"%byte :: empty_frame)).
Proof.
  split; [|vm_compute; auto].
  eexists. split; vm_compute; reflexivity.
Qed.

End CorruptByteExamples.

(** ** The header codec against the wire table *)

Section WireTable.
Context {engine : Engine}.
Import Buffer BufferFacts.

Lemma byte_val_of z : 0 <= z < 256 -> byte_val (byte_of z) = z.
Proof.
  intros Hz. unfold byte_of, byte_val.
  destruct (Byte.of_N (Z.to_N z)) as [x|] eqn:E.
  - apply Byte.to_of_N in E. lia.
  - apply Byte.of_N_None_iff in E. lia.
Qed.

Lemma length_int_be w z : length (int_be w z) = w.
Proof.
  revert z. induction w as [|w IH]; intros z; cbn [int_be]; [reflexivity|].
  rewrite length_app, IH. simpl. lia.
Qed.

Lemma len_int_be w z : len (int_be w z) = Z.of_nat w.
Proof. unfold len. rewrite length_int_be. reflexivity. Qed.

(** Reading back what was written: the value modulo the width. *)
Lemma be_value_int_be w z : be_value (int_be w z) = z mod 256 ^ Z.of_nat w.
Proof.
  revert z. induction w as [|w IH]; intros z.
  - cbn. rewrite Z.mod_1_r. reflexivity.
  - cbn [int_be]. rewrite be_value_snoc, IH.
    rewrite byte_val_of by (apply Z.mod_pos_bound; lia).
    rewrite Nat2Z.inj_succ, Z.pow_succ_r by lia.
    rewrite Z.rem_mul_r by lia. lia.
Qed.


(** Reads and slices in the middle of a buffer. *)
Lemma window_at (buffer pre mid post : t) n offset :
  buffer = pre ++ mid ++ post -> offset = len pre -> n = length mid ->
  window n buffer offset = Return mid.
Proof.
  intros -> -> ->.
  destruct (window_spec (length mid) (pre ++ mid ++ post) (len pre)) as [(_ & _ & ->) | (Hbad & _)].
  - unfold len. rewrite Nat2Z.id, drop_app_length, take_app_length. reflexivity.
  - rewrite !len_app in Hbad. pose proof (len_nonneg pre). pose proof (len_nonneg post).
    unfold len in *. lia.
Qed.

Lemma slice_at (buffer pre mid post : t) s e :
  buffer = pre ++ mid ++ post -> s = len pre -> e = len pre + len mid ->
  slice buffer s e = mid.
Proof.
  intros -> -> ->. unfold slice.
  pose proof (len_nonneg pre). pose proof (len_nonneg mid). pose proof (len_nonneg post).
  rewrite !clamp_nonneg by lia. rewrite !len_app.
  rewrite !Z.min_l by lia.
  replace (len pre + len mid - len pre) with (len mid) by lia.
  unfold len. rewrite !Nat2Z.id, drop_app_length, take_app_length. reflexivity.
Qed.


























End WireTable.

Section WireTableExamples.
#[local] Existing Instance example_engine.






(** A record named [__proto__] with a value that is no object leaves no
    trace, and below a Buffer a numeric name beyond its elements is dropped
    while an index of its elements is kept. *)
Example parseHeaders_proto_records :
  (exists hs,
      parseHeaders (encode_entries [(Buffer.of_string "__proto__", WTrue);
                                    (Buffer.of_string "a", WFalse)]) = Return hs
      /\ hs !! js "__proto__" = None /\ hs !! js "a" = Some (VBool false)
      /\ proto hs = ObjectPrototype)
  /\ (exists hs,
        parseHeaders (encode_entries [(Buffer.of_string "__proto__",
                                       WBytes (Buffer.of_list [1; 2; 3]));
                                      (Buffer.of_string "7", WTrue);
                                      (Buffer.of_string "2", WFalse);
                                      (Buffer.of_string "toString", WTrue)]) = Return hs
        /\ hs !! js "7" = None /\ hs !! js "2" = Some (VBool false)
        /\ hs !! js "toString" = Some (VBool true)
        /\ proto hs = BufferPrototype (Buffer.of_list [1; 2; 3]))
  /\ (exists hs,
        parseHeaders (encode_entries [(Buffer.of_string "a", WTrue);
                                      (Buffer.of_string "__proto__", WTimestamp 0);
                                      (Buffer.of_string "length", WFalse);
                                      (Buffer.of_string "7", WTrue)]) = Return hs
        /\ hs !! js "a" = Some (VBool true)
        /\ hs !! js "length" = Some (VBool false) /\ hs !! js "7" = Some (VBool true)
        /\ proto hs = DatePrototype (Some 0)).
Proof.
  split; [|split]; eexists; (split; [vm_compute; reflexivity|]);
    repeat split; vm_compute; reflexivity.
Qed.

(** Below a Buffer each of the names it holds read-only throws, unless the
    name is an own property already. *)
Example read_only_names_throw :
  Forall (fun name =>
            assign (Headers ∅ (BufferPrototype (Buffer.of_list [1; 2; 3]))) name (VBool true)
            = Throw TypeError
            /\ assign (Headers {[name := VBool false]}
                         (BufferPrototype (Buffer.of_list [1; 2; 3]))) name (VBool true)
               = Return (Headers {[name := VBool true]}
                           (BufferPrototype (Buffer.of_list [1; 2; 3]))))
         read_only_names.
Proof.
  unfold read_only_names. cbn [map].
  repeat (apply List.Forall_cons; [split; vm_compute; reflexivity|]).
  apply List.Forall_nil.
Qed.

Example ten_entries_decoded :
  ten_entries_value "a" = Some (VBool true)
  /\ ten_entries_value "b" = Some (VBool false)
  /\ ten_entries_value "c" = Some (VNumber (-2))
  /\ ten_entries_value "d" = Some (VNumber (-300))
  /\ ten_entries_value "e" = Some (VNumber 70000)
  /\ ten_entries_value "f" = Some (VBigInt 42)
  /\ ten_entries_value "g" = Some (VBuffer (Buffer.of_list [0; 255]))
  /\ ten_entries_value "h" = Some (VString (js "hello"))
  /\ ten_entries_value "i" = Some (VDate (Some 1700000000000))
  /\ ten_entries_value "j" = Some (VString (js "abababababababababababababababab")).
Proof. repeat split; vm_compute; reflexivity. Qed.

End WireTableExamples.

(** ** The event mapper *)

Section EventMapperFacts.
Variable json : Type.
Variable JSON_parse : jsstring -> option json.

(** C9. For every frame [parseKiroEvent] returns, without an exception, an
    event whose [type] is the frame's [:event-type] header and whose [data]
    is [null] when the payload is absent or empty, and otherwise the value
    [JSON.parse] gives for the payload read as UTF-8, or that text when
    [JSON.parse] throws. *)
Theorem parseKiroEvent_total (fr : frame) :
  parseKiroEvent json JSON_parse fr
  = Return
      {| type := headers fr !! event_type_key;
         data :=
           match payload fr with
           | None | Some [] => DNull
           | Some p =>
               match JSON_parse (Utf8.toString p) with
               | Some j => DJson json j
               | None => DText (Utf8.toString p)
               end
           end |}.
Proof.
  unfold parseKiroEvent. destruct (payload fr) as [[|x p]|]; try reflexivity.
  change (Buffer.len (x :: p) =? 0) with (Z.of_nat (S (length p)) =? 0).
  destruct (Z.eqb_spec (Z.of_nat (S (length p))) 0) as [H|_]; [lia|].
  destruct (JSON_parse (Utf8.toString (x :: p))); reflexivity.
Qed.

End EventMapperFacts.

Section EventMapperFactsExamples.
#[local] Existing Instance example_engine.

(** ** Headers read past the frame *)

(** C8 fails on the code: [parseFrame] does not check the declared headers
    length against the declared total length. [overreaching] declares a
    frame of 16 bytes with 7 bytes of headers; the frame is returned, with
    the header [a] that lies after the frame's 16 bytes, and two records
    read from its checksum bytes. *)
Lemma parseFrame_reads_headers_past_frame :
  exists fr,
    parseFrame no_gunzip overreaching 0 = Return (Some fr)
    /\ consumed fr = 16
    /\ totalLength_at overreaching 0 = 16
    /\ headersLength_at overreaching 0 = 7
    /\ headers fr !! js "" = Some (VBool true)
    /\ headers fr !! js "a" = Some (VBool true)
    /\ drop 16 overreaching = encode_header (Buffer.of_string "a") 0 [].
Proof.
  eexists. split; [vm_compute; reflexivity|]. repeat split; vm_compute; reflexivity.
Qed.

(** ** Chunking *)

(** C1 fails on the code, for the same reason: the headers of a frame are
    read up to the end of the buffer, so what follows a frame in the buffer
    changes the frame. Fed at once, [overreaching] yields a frame with the
    header [a]; fed as its first 16 bytes and then the rest, it yields a
    frame without it. *)
Lemma chunking_changes_frames :
  exists whole split,
    one_shot no_gunzip overreaching = Return [whole]
    /\ chunked no_gunzip [take 16 overreaching; drop 16 overreaching] new_decoder
       = Return [split]
    /\ headers whole !! js "a" = Some (VBool true)
    /\ headers split !! js "a" = None
    /\ whole <> split.
Proof.
  do 2 eexists. split; [vm_compute; reflexivity|]. split; [vm_compute; reflexivity|].
  split; [vm_compute; reflexivity|]. split; [vm_compute; reflexivity|].
  intros Heq. apply (f_equal (fun fr => headers fr !! js "a")) in Heq.
  vm_compute in Heq. discriminate.
Qed.

End EventMapperFactsExamples.

(** * Further properties of the parser *)

(** ** Laid-out frames *)

Section LaidOutFrames.
Context {engine : Engine}.
Import Buffer BufferFacts.
Variable gunzipSync : Buffer.t -> option Buffer.t.

Lemma uint32be_value z : 0 <= z < 2 ^ 32 -> be_value (uint32be z) = z.
Proof.
  intros Hz. unfold uint32be. rewrite be_value_int_be.
  change (256 ^ Z.of_nat 4) with (2 ^ 32). apply Z.mod_small. exact Hz.
Qed.

Lemma len_uint32be z : len (uint32be z) = 4.
Proof. apply (len_int_be 4). Qed.

Lemma len_lay_frame (c1 H P c2 : t) :
  len (lay_frame c1 H P c2) = 8 + len c1 + len H + len P + len c2.
Proof. unfold lay_frame. rewrite !len_app, !len_uint32be. lia. Qed.

(** The parser on a laid-out frame followed by anything. *)
Lemma parseFrame_lay_frame (c1 H P c2 rest : t) :
  len c1 = 4 -> len c2 = 4 ->
  MIN_MESSAGE_SIZE + len H + len P <= MAX_MESSAGE_SIZE ->
  parseFrame gunzipSync (lay_frame c1 H P c2 ++ rest) 0 = frame_of_parts gunzipSync H P.
Proof.
  intros Hc1 Hc2 Hmax.
  pose proof (len_nonneg H) as HH. pose proof (len_nonneg P) as HP.
  pose proof (len_nonneg rest) as Hr.
  assert (len H < 2 ^ 32) as HH32
    by (unfold MIN_MESSAGE_SIZE, PRELUDE_SIZE, MESSAGE_CRC_SIZE, MAX_MESSAGE_SIZE in *; lia).
  set (tl := MIN_MESSAGE_SIZE + len H + len P) in *.
  assert (16 <= tl <= 16777216) as Htl
    by (subst tl; unfold MIN_MESSAGE_SIZE, PRELUDE_SIZE, MESSAGE_CRC_SIZE, MAX_MESSAGE_SIZE in *; lia).
  set (buf := lay_frame c1 H P c2 ++ rest).
  assert (len buf = tl + len rest) as Hlen.
  { subst buf tl. rewrite len_app, len_lay_frame.
    unfold MIN_MESSAGE_SIZE, PRELUDE_SIZE, MESSAGE_CRC_SIZE. lia. }
  rewrite parseFrame_eq. unfold parseFrame_body, frame_of_parts.
  fold tl.
  destruct (Z.ltb_spec (len buf - 0) MIN_MESSAGE_SIZE) as [Hs|_].
  { unfold MIN_MESSAGE_SIZE, PRELUDE_SIZE, MESSAGE_CRC_SIZE in Hs. lia. }
  unfold readUInt32BE.
  rewrite (window_at buf [] (uint32be tl)
             (uint32be (len H) ++ c1 ++ H ++ P ++ c2 ++ rest) 4 0);
    [|subst buf; unfold lay_frame; fold tl; rewrite <- ?app_assoc; reflexivity
     |reflexivity | unfold uint32be; rewrite length_int_be; reflexivity].
  cbn [bind]. rewrite uint32be_value by lia.
  rewrite (window_at buf (uint32be tl) (uint32be (len H))
             (c1 ++ H ++ P ++ c2 ++ rest) 4 (0 + 4));
    [|subst buf; unfold lay_frame; fold tl; rewrite <- ?app_assoc; reflexivity
     |rewrite len_uint32be; reflexivity
     |unfold uint32be; rewrite length_int_be; reflexivity].
  cbn [bind]. rewrite uint32be_value by lia.
  destruct (Z.ltb_spec tl MIN_MESSAGE_SIZE) as [Hlo|_].
  { unfold MIN_MESSAGE_SIZE, PRELUDE_SIZE, MESSAGE_CRC_SIZE in Hlo. lia. }
  destruct (Z.ltb_spec MAX_MESSAGE_SIZE tl) as [Hhi|_].
  { unfold MAX_MESSAGE_SIZE in Hhi. lia. }
  cbn [orb].
  destruct (Z.ltb_spec (len buf - 0) tl) as [Hw|_]; [lia|].
  rewrite (slice_at buf (uint32be tl ++ uint32be (len H) ++ c1) H (P ++ c2 ++ rest));
    [|subst buf; unfold lay_frame; fold tl; rewrite <- ?app_assoc; reflexivity
     |rewrite !len_app, !len_uint32be; unfold PRELUDE_SIZE; lia
     |rewrite !len_app, !len_uint32be; unfold PRELUDE_SIZE; lia].
  rewrite (slice_at buf (uint32be tl ++ uint32be (len H) ++ c1 ++ H) P (c2 ++ rest));
    [|subst buf; unfold lay_frame; fold tl; rewrite <- ?app_assoc; reflexivity
     |rewrite !len_app, !len_uint32be; unfold PRELUDE_SIZE; lia
     |rewrite !len_app, !len_uint32be; subst tl;
      unfold MIN_MESSAGE_SIZE, PRELUDE_SIZE, MESSAGE_CRC_SIZE; lia].
  reflexivity.
Qed.

End LaidOutFrames.

(** ** Waiting for a whole frame, and streams of frames *)

Section Streams.
Context {engine : Engine}.
Import Buffer BufferFacts.
Variable gunzipSync : Buffer.t -> option Buffer.t.

Lemma readUInt32BE_app (f more : t) offset :
  0 <= offset -> offset + 4 <= len f ->
  readUInt32BE (f ++ more) offset = Return (totalLength_at f offset).
Proof.
  intros H0 H4. unfold readUInt32BE, totalLength_at.
  destruct (window_spec 4 (f ++ more) offset) as [(_ & _ & ->) | (Hbad & _)].
  - cbn [bind]. do 2 f_equal. unfold len in *.
    rewrite drop_app_le by lia. rewrite take_app_le; [reflexivity|].
    rewrite length_drop. lia.
  - rewrite len_app in Hbad. pose proof (len_nonneg more).
    change (Z.of_nat 4) with 4 in Hbad. lia.
Qed.

Lemma readUInt32BE_here (f : t) offset :
  0 <= offset -> offset + 4 <= len f ->
  readUInt32BE f offset = Return (totalLength_at f offset).
Proof.
  intros H0 H4. rewrite <- (app_nil_r f) at 1. apply readUInt32BE_app; assumption.
Qed.

Lemma slice_app_l (b more : t) s e :
  0 <= s -> 0 <= e <= len b -> slice (b ++ more) s e = slice b s e.
Proof.
  intros Hs He. unfold slice.
  rewrite !clamp_nonneg by lia. rewrite len_app.
  pose proof (len_nonneg more) as Hm.
  rewrite (Z.min_l e) by lia. rewrite (Z.min_l e (len b)) by lia.
  unfold len in *.
  destruct (Z.le_gt_cases s e).
  - rewrite !(Z.min_l s) by lia.
    rewrite drop_app_le by lia. rewrite take_app_le; [reflexivity|].
    rewrite length_drop. lia.
  - replace (Z.to_nat (e - Z.min s (Z.of_nat (length b) + Z.of_nat (length more)))) with O by lia.
    replace (Z.to_nat (e - Z.min s (Z.of_nat (length b)))) with O by lia.
    reflexivity.
Qed.

(** With the headers and the payload inside the first [totalLength] bytes,
    the body of [parseFrame] does not look at what follows them. *)
Lemma parseFrame_body_app recur (f more : t) :
  16 <= len f ->
  16 <= totalLength_at f 0 <= len f ->
  headersLength_at f 0 <= len f - 12 ->
  parseFrame_body gunzipSync recur (f ++ more) 0 = parseFrame_body gunzipSync recur f 0.
Proof.
  intros Hl Htl Hhl. pose proof (len_nonneg more) as Hm.
  unfold parseFrame_body.
  rewrite !readUInt32BE_app by lia. rewrite !readUInt32BE_here by lia.
  rewrite len_app. cbn [bind].
  fold (headersLength_at f 0).
  assert (0 <= headersLength_at f 0) as Hh0.
  { unfold headersLength_at, totalLength_at. apply be_value_range. }
  destruct (Z.ltb_spec (len f + len more - 0) MIN_MESSAGE_SIZE) as [Hs|_];
    [unfold MIN_MESSAGE_SIZE, PRELUDE_SIZE, MESSAGE_CRC_SIZE in Hs; lia|].
  destruct (Z.ltb_spec (len f - 0) MIN_MESSAGE_SIZE) as [Hs|_];
    [unfold MIN_MESSAGE_SIZE, PRELUDE_SIZE, MESSAGE_CRC_SIZE in Hs; lia|].
  destruct ((totalLength_at f 0 <? MIN_MESSAGE_SIZE)
            || (MAX_MESSAGE_SIZE <? totalLength_at f 0)); [reflexivity|].
  destruct (Z.ltb_spec (len f + len more - 0) (totalLength_at f 0)) as [Hs|_]; [lia|].
  destruct (Z.ltb_spec (len f - 0) (totalLength_at f 0)) as [Hs|_]; [lia|].
  unfold PRELUDE_SIZE, MESSAGE_CRC_SIZE.
  rewrite !(slice_app_l f more) by lia. reflexivity.
Qed.

(** A sealed frame is read the same whatever follows it in the buffer. *)
Lemma sealed_app (f more : t) fr :
  sealed gunzipSync f fr -> parseFrame gunzipSync (f ++ more) 0 = Return (Some fr).
Proof.
  intros (Hp & Hc & Hh).
  pose proof (parseFrame_Some _ _ _ _ Hp) as Hs. cbv zeta in Hs.
  destruct Hs as (_ & Hb & Hfit & _ & Hc' & _).
  unfold MIN_MESSAGE_SIZE, PRELUDE_SIZE, MESSAGE_CRC_SIZE in Hb.
  rewrite <- Hp. rewrite !parseFrame_eq. apply parseFrame_body_app; lia.
Qed.

Lemma sealed_len (f : t) fr : sealed gunzipSync f fr -> 16 <= len f <= 16777216.
Proof.
  intros (Hp & Hc & _). apply parseFrame_Some in Hp. cbv zeta in Hp.
  destruct Hp as (_ & Hb & _ & _ & Hc' & _).
  unfold MIN_MESSAGE_SIZE, MAX_MESSAGE_SIZE, PRELUDE_SIZE, MESSAGE_CRC_SIZE in Hb. lia.
Qed.

Lemma sealed_totalLength (f : t) fr : sealed gunzipSync f fr -> totalLength_at f 0 = len f.
Proof.
  intros (Hp & Hc & _). apply parseFrame_Some in Hp. cbv zeta in Hp.
  destruct Hp as (_ & _ & _ & _ & Hc' & _). lia.
Qed.

(** The extraction on a stalled buffer of at least 16 bytes: not enough data. *)
Lemma parseFrame_stalled (buf : t) :
  16 <= len buf -> stalled buf -> parseFrame gunzipSync buf 0 = Return None.
Proof.
  intros Hl [Hs | (Hb & Hw)]; [lia|].
  rewrite parseFrame_eq.
  destruct (parseFrame_body_spec gunzipSync (parseFrame gunzipSync) buf 0)
    as [(_ & E) | [(_ & ? & _) | (tl & hl & _ & _ & Htl & _ & _ & E)]]; [exact E | lia |].
  apply readUInt32BE_at in Htl. subst tl. cbv zeta in E.
  unfold MIN_MESSAGE_SIZE, MAX_MESSAGE_SIZE, PRELUDE_SIZE, MESSAGE_CRC_SIZE in E.
  destruct E as [(? & _) | [(_ & _ & E) | (_ & ? & _)]]; [lia | exact E | lia].
Qed.

Lemma decode_loop_stalled (buf : t) :
  stalled buf -> decode_loop gunzipSync (length buf) buf = Return ([], buf).
Proof.
  intros Hs. rewrite decode_loop_eq.
  destruct (Z.leb_spec MIN_MESSAGE_SIZE (len buf)) as [Hl|_]; [|reflexivity].
  unfold MIN_MESSAGE_SIZE, PRELUDE_SIZE, MESSAGE_CRC_SIZE in Hl.
  pose proof (decode_turn_cases gunzipSync buf) as Ht.
  rewrite (parseFrame_stalled buf) in Ht by (assumption || lia).
  destruct Ht as (-> & _). reflexivity.
Qed.

Lemma totalLength_at_prefix (p s : t) : 4 <= len p -> totalLength_at (p ++ s) 0 = totalLength_at p 0.
Proof.
  intros H. unfold totalLength_at. change (Z.to_nat 0) with O. rewrite !drop_0.
  rewrite take_app_le; [reflexivity|]. unfold len in H. lia.
Qed.

(** A strict prefix of a sealed frame is a stalled buffer. *)
Lemma sealed_prefix_stalled (p s : t) fr :
  sealed gunzipSync (p ++ s) fr -> s <> [] -> stalled p.
Proof.
  intros Hs Hne. pose proof (sealed_len _ _ Hs) as Hl.
  pose proof (sealed_totalLength _ _ Hs) as Ht.
  rewrite len_app in *.
  assert (0 < len s) as Hpos by (destruct s; [contradiction | rewrite len_cons; pose proof (len_nonneg s); lia]).
  destruct (Z.lt_ge_cases (len p) 16) as [Hshort|Hlong]; [left; exact Hshort|].
  right. rewrite totalLength_at_prefix in Ht by lia.
  change (16 * 1024 * 1024) with 16777216. lia.
Qed.

(** A stalled buffer: [decode] yields nothing and keeps every byte. *)
Lemma decode_stalled (buf : t) :
  stalled buf -> decode gunzipSync {| buffer := buf |} = Return ([], {| buffer := buf |}).
Proof.
  intros Hs. unfold decode, decode_trace. cbn [buffer].
  rewrite decode_loop_stalled by exact Hs. reflexivity.
Qed.

Lemma yielded_map (frs : list frame) :
  yielded (map (fun fr => Yield (surfaced fr)) frs) = map surfaced frs.
Proof. induction frs as [|fr frs IH]; [reflexivity|]. cbn. f_equal. exact IH. Qed.

(** The loop on sealed frames followed by a stalled rest. *)
Lemma decode_loop_stream (fs : list t) (frs : list frame) (p : t) :
  Forall2 (sealed gunzipSync) fs frs -> stalled p ->
  decode_loop gunzipSync (length (List.concat fs ++ p)) (List.concat fs ++ p)
  = Return (map (fun fr => Yield (surfaced fr)) frs, p).
Proof.
  intros Hfs Hp. induction Hfs as [|f fr fs frs Hf Hfs IH].
  - cbn [List.concat app map]. apply decode_loop_stalled. exact Hp.
  - cbn [List.concat map]. rewrite <- app_assoc.
    pose proof (sealed_len _ _ Hf) as Hl.
    rewrite decode_loop_eq.
    destruct (Z.leb_spec MIN_MESSAGE_SIZE (len (f ++ List.concat fs ++ p))) as [_|Hs].
    2:{ rewrite len_app in Hs. pose proof (len_nonneg (List.concat fs ++ p)).
        unfold MIN_MESSAGE_SIZE, PRELUDE_SIZE, MESSAGE_CRC_SIZE in Hs. lia. }
    pose proof (decode_turn_cases gunzipSync (f ++ List.concat fs ++ p)) as Ht.
    rewrite (sealed_app f _ fr Hf) in Ht.
    destruct Ht as (_ & _ & _ & -> & _). cbn [bind].
    destruct Hf as (_ & -> & _). unfold len at 1 2. rewrite Nat2Z.id, drop_app_length.
    rewrite IH. reflexivity.
Qed.

(** A prefix of a stream of frames: some whole frames, then a strict prefix
    of the next one. *)
Lemma stream_prefix_split (fs : list t) (q r : t) :
  q ++ r = List.concat fs ->
  exists fs1 fs2 p,
    fs = fs1 ++ fs2 /\ q = List.concat fs1 ++ p
    /\ match fs2 with
       | [] => p = []
       | f :: _ => exists s, f = p ++ s /\ s <> []
       end.
Proof.
  revert q. induction fs as [|f fs IH]; intros q Hq.
  - cbn in Hq. apply app_eq_nil in Hq. destruct Hq as (-> & _).
    exists [], [], []. auto.
  - cbn [List.concat] in Hq. apply app_eq_app in Hq.
    destruct Hq as (l & [(Hq & Hr) | (Hf & Hr)]).
    + destruct (IH l) as (fs1 & fs2 & p & -> & -> & Hp); [symmetry; exact Hr|].
      exists (f :: fs1), fs2, p. subst q. cbn [List.concat app].
      rewrite <- app_assoc. auto.
    + destruct l as [|x l].
      * rewrite app_nil_r in Hf. subst f.
        destruct (IH []) as (fs1 & fs2 & p & -> & Hnil & Hp); [exact Hr|].
        exists (q :: fs1), fs2, p. cbn [List.concat app]. rewrite <- app_assoc, <- Hnil.
        rewrite app_nil_r. auto.
      * exists [], (f :: fs), q. cbn [List.concat app]. repeat split; auto.
        exists (x :: l). split; [exact Hf | discriminate].
Qed.

End Streams.

Section StreamTheorems.
Context {engine : Engine}.
Import Buffer BufferFacts.
Variable gunzipSync : Buffer.t -> option Buffer.t.

Lemma stalled_nil : stalled [].
Proof. left. reflexivity. Qed.

(** X4. A frame that the codec accepts ([sealed]: [parseFrame] returns it,
    its headers inside it) and of which only a strict prefix has arrived is
    not yielded, and no byte of it is dropped; once the rest has been fed,
    [decode] yields it and the buffer is empty. *)
Theorem decode_waits_for_frame (f : Buffer.t) (fr : frame) (n : nat) :
  sealed gunzipSync f fr -> (n < length f)%nat ->
  decode gunzipSync (feed new_decoder (take n f))
  = Return ([], feed new_decoder (take n f))
  /\ decode gunzipSync (feed (feed new_decoder (take n f)) (drop n f))
     = Return ([surfaced fr], new_decoder).
Proof.
  intros Hs Hn. split.
  - apply decode_stalled. change (Buffer.concat [] (take n f)) with (take n f).
    apply (sealed_prefix_stalled gunzipSync (take n f) (drop n f) fr).
    + rewrite take_drop. exact Hs.
    + intros Hnil. apply (f_equal length) in Hnil. rewrite length_drop in Hnil.
      simpl in Hnil. lia.
  - unfold feed, new_decoder, Buffer.concat. cbn [buffer app]. rewrite take_drop.
    unfold decode, decode_trace. cbn [buffer].
    assert (Forall2 (sealed gunzipSync) [f] [fr]) as Hfs by (constructor; [exact Hs | constructor]).
    pose proof (decode_loop_stream gunzipSync [f] [fr] [] Hfs stalled_nil) as H.
    cbn [List.concat] in H. rewrite !app_nil_r in H. rewrite H. reflexivity.
Qed.

(** X5. A buffer that holds whole frames that the codec accepts, each with
    its headers inside it, followed by an incomplete rest: [decode] yields
    exactly these frames, in order, and leaves the rest in the buffer. *)
Theorem decode_stream (fs : list Buffer.t) (frs : list frame) (p : Buffer.t) :
  Forall2 (sealed gunzipSync) fs frs -> stalled p ->
  decode gunzipSync (feed new_decoder (List.concat fs ++ p))
  = Return (map surfaced frs, {| buffer := p |}).
Proof.
  intros Hfs Hp. unfold decode, decode_trace, feed, new_decoder, Buffer.concat.
  cbn [buffer app]. rewrite (decode_loop_stream gunzipSync fs frs p Hfs Hp).
  cbn [bind]. rewrite yielded_map. reflexivity.
Qed.

Lemma chunked_stream (chunks : list Buffer.t) :
  forall (d : EventStreamDecoder) (fs : list Buffer.t) (frs : list frame),
    Forall2 (sealed gunzipSync) fs frs ->
    buffer d ++ List.concat chunks = List.concat fs ->
    match fs with
    | [] => buffer d = []
    | f :: _ => exists s, f = buffer d ++ s /\ s <> []
    end ->
    chunked gunzipSync chunks d = Return (map surfaced frs).
Proof.
  induction chunks as [|c chunks IH]; intros d fs frs Hfs Heq Hpre.
  - cbn [List.concat] in Heq. rewrite app_nil_r in Heq. cbn [chunked].
    destruct Hfs as [|f fr fs frs Hf Hfs]; [reflexivity|].
    destruct Hpre as (s & Hs & Hne). exfalso.
    cbn [List.concat] in Heq. rewrite Heq in Hs.
    apply (f_equal length) in Hs. rewrite !length_app in Hs.
    destruct s; [contradiction | simpl in Hs; lia].
  - cbn [chunked List.concat] in *.
    rewrite app_assoc in Heq.
    destruct (stream_prefix_split fs (buffer d ++ c) (List.concat chunks) Heq)
      as (fs1 & fs2 & p & -> & Hq & Hp).
    apply Forall2_app_inv_l in Hfs. destruct Hfs as (frs1 & frs2 & Hfs1 & Hfs2 & ->).
    assert (stalled p) as Hst.
    { destruct Hfs2 as [|f fr fs2 frs2 Hf Hfs2]; [subst p; apply stalled_nil|].
      destruct Hp as (s & -> & Hne).
      eapply sealed_prefix_stalled; eauto. }
    unfold decode, decode_trace, feed, Buffer.concat. cbn [buffer]. rewrite Hq.
    rewrite (decode_loop_stream gunzipSync fs1 frs1 p Hfs1 Hst). cbn [bind].
    rewrite yielded_map.
    rewrite (IH {| buffer := p |} fs2 frs2 Hfs2).
    + cbn [bind]. rewrite map_app. reflexivity.
    + cbn [buffer]. rewrite Hq, concat_app, <- app_assoc in Heq.
      apply app_inv_head in Heq. exact Heq.
    + cbn [buffer]. exact Hp.
Qed.

(** X6. For a stream of whole frames that the codec accepts, each with its
    headers inside it, chunking does not matter: however the stream is cut
    into chunks, feeding the chunks one at a time and decoding after each
    feed yields, in all, the same frames as feeding the whole stream and
    decoding once. *)
Theorem chunking_sealed_stream (fs chunks : list Buffer.t) (frs : list frame) :
  Forall2 (sealed gunzipSync) fs frs ->
  List.concat chunks = List.concat fs ->
  chunked gunzipSync chunks new_decoder = Return (map surfaced frs)
  /\ one_shot gunzipSync (List.concat fs) = Return (map surfaced frs).
Proof.
  intros Hfs Heq. split.
  - apply (chunked_stream chunks new_decoder fs frs Hfs); [exact Heq|].
    destruct Hfs as [|f fr fs frs Hf Hfs]; [reflexivity|].
    exists f. split; [reflexivity|].
    pose proof (sealed_len _ _ _ Hf) as Hl. intros ->. change (len []) with 0 in Hl. lia.
  - unfold one_shot, decode, decode_trace, feed, new_decoder, Buffer.concat.
    cbn [buffer app].
    pose proof (decode_loop_stream gunzipSync fs frs [] Hfs stalled_nil) as H.
    rewrite app_nil_r in H. rewrite H. cbn [bind]. rewrite yielded_map. reflexivity.
Qed.

End StreamTheorems.

Section StreamTheoremsExamples.
#[local] Existing Instance example_engine.

Lemma event_frame_sealed :
  exists fr, sealed no_gunzip event_frame fr /\ surfaced fr = fr
             /\ headers fr !! event_type_key = Some (VString (js "end"))
             /\ payload fr = Some (Buffer.of_string "hi").
Proof.
  eexists. split.
  { split; [vm_compute; reflexivity|]. split; [vm_compute; reflexivity|].
    vm_compute. discriminate. }
  repeat split; vm_compute; reflexivity.
Qed.

Lemma wrapped_frame_sealed :
  exists fr inner, sealed no_gunzip wrapped_frame fr /\ surfaced fr = inner
             /\ headers inner !! event_type_key = Some (VString (js "end")).
Proof.
  do 2 eexists. split.
  { split; [vm_compute; reflexivity|]. split; [vm_compute; reflexivity|].
    vm_compute. discriminate. }
  split; vm_compute; reflexivity.
Qed.

Lemma decode_waits_for_frame_witness :
  decode no_gunzip (feed new_decoder (take 20 event_frame))
  = Return ([], feed new_decoder (take 20 event_frame)).
Proof.
  destruct event_frame_sealed as (fr & Hs & _).
  apply (decode_waits_for_frame no_gunzip event_frame fr 20 Hs).
  vm_compute. lia.
Defined.

Lemma decode_stream_witness :
  exists fr1 fr2,
    decode no_gunzip
      (feed new_decoder (List.concat [event_frame; wrapped_frame] ++ take 30 event_frame))
    = Return ([fr1; fr2], {| buffer := take 30 event_frame |}).
Proof.
  destruct event_frame_sealed as (fr1 & Hs1 & Hsf1 & _).
  destruct wrapped_frame_sealed as (fr2 & inner & Hs2 & Hsf2 & _).
  exists fr1, inner.
  assert (Forall2 (sealed no_gunzip) [event_frame; wrapped_frame] [fr1; fr2]) as Hfs
    by (constructor; [assumption|]; constructor; [assumption|]; constructor).
  assert (stalled (take 30 event_frame)) as Hst
    by (right; vm_compute; repeat split; discriminate).
  pose proof (decode_stream no_gunzip _ _ _ Hfs Hst) as H.
  cbn [map] in H. rewrite Hsf1, Hsf2 in H. exact H.
Defined.

Lemma chunking_sealed_stream_witness :
  exists fr1 fr2,
    chunked no_gunzip
      [take 20 event_frame; drop 20 event_frame ++ take 5 wrapped_frame; [];
       drop 5 wrapped_frame]
      new_decoder
    = Return [fr1; fr2]
    /\ one_shot no_gunzip (event_frame ++ wrapped_frame) = Return [fr1; fr2].
Proof.
  destruct event_frame_sealed as (fr1 & Hs1 & Hsf1 & _).
  destruct wrapped_frame_sealed as (fr2 & inner & Hs2 & Hsf2 & _).
  exists fr1, inner.
  assert (Forall2 (sealed no_gunzip) [event_frame; wrapped_frame] [fr1; fr2]) as Hfs
    by (constructor; [assumption|]; constructor; [assumption|]; constructor).
  destruct (chunking_sealed_stream no_gunzip [event_frame; wrapped_frame]
              [take 20 event_frame; drop 20 event_frame ++ take 5 wrapped_frame; [];
               drop 5 wrapped_frame] [fr1; fr2] Hfs) as (H1 & H2).
  - cbn [List.concat]. rewrite !app_nil_r, <- !app_assoc.
    rewrite (app_assoc (take 20 event_frame)), take_drop.
    rewrite take_drop. reflexivity.
  - cbn [map List.concat] in H1, H2. rewrite app_nil_r in H2.
    rewrite Hsf1, Hsf2 in H1, H2. split; assumption.
Defined.

End StreamTheoremsExamples.

(** ** What parseFrame makes of a laid-out frame *)

Section LayoutTheorems.
Context {engine : Engine}.
Import Buffer BufferFacts.
Variable gunzipSync : Buffer.t -> option Buffer.t.

(** X1. [parseFrame] reads the two lengths, the header bytes and the
    payload bytes of a frame and nothing else: the four bytes of the prelude
    checksum, the four bytes of the message checksum and whatever follows
    the frame in the buffer do not change its result (no checksum is
    verified). *)
Theorem parseFrame_layout_only (c1 c1' c2 c2' H P rest rest' : Buffer.t) :
  len c1 = 4 -> len c1' = 4 -> len c2 = 4 -> len c2' = 4 ->
  16 + len H + len P <= 16 * 1024 * 1024 ->
  parseFrame gunzipSync (lay_frame c1 H P c2 ++ rest) 0
  = parseFrame gunzipSync (lay_frame c1' H P c2' ++ rest') 0.
Proof.
  intros H1 H1' H2 H2' Hmax.
  rewrite !parseFrame_lay_frame by assumption. reflexivity.
Qed.








Lemma slice_length_le (b : Buffer.t) s e :
  0 <= s -> 0 <= e -> len (slice b s e) <= Z.max 0 (e - s).
Proof.
  intros Hs He. unfold slice.
  rewrite (clamp_nonneg b s), (clamp_nonneg b e) by lia.
  unfold len. rewrite length_take, length_drop. lia.
Qed.

(** X7. A nested frame lies inside the payload region of its wrapper: its
    declared length is at least 16 and at most the wrapper's declared length
    less the wrapper's header length and the 16 bytes of prelude and
    checksum. Every level of nesting is at least 16 bytes shorter. *)
Theorem nested_frame_smaller (buf : Buffer.t) (offset : Z) (fr inner : frame) :
  parseFrame gunzipSync buf offset = Return (Some fr) ->
  nested fr = Some inner ->
  16 <= consumed inner
  /\ consumed inner + headersLength_at buf offset + 16 <= consumed fr.
Proof.
  intros Hp Hi. apply parseFrame_Some in Hp. cbv zeta in Hp.
  destruct Hp as (Hoff & Hb & Hfit & Hhr & Hc & _ & Hn).
  destruct (is_nested (headers fr !! content_type_key)); [|destruct Hn; congruence].
  destruct Hn as (_ & Hn). rewrite Hi in Hn.
  apply parseFrame_Some in Hn. cbv zeta in Hn.
  destruct Hn as (_ & Hb' & Hfit' & _ & Hc' & _).
  unfold payload_region, MIN_MESSAGE_SIZE, PRELUDE_SIZE, MESSAGE_CRC_SIZE in *.
  split; [lia|].
  pose proof (slice_length_le buf (offset + 12 + headersLength_at buf offset)
                (offset + totalLength_at buf offset - 4) ltac:(lia) ltac:(lia)) as Hs.
  lia.
Qed.

End LayoutTheorems.

Section LayoutTheoremsExamples.
#[local] Existing Instance example_engine.

Lemma parseFrame_layout_only_witness :
  parseFrame no_gunzip (lay_frame (Buffer.of_list [1; 2; 3; 4]) [] (Buffer.of_string "hi")
                          (Buffer.of_list [5; 6; 7; 8]) ++ Buffer.of_string "next") 0
  = parseFrame no_gunzip (lay_frame (Buffer.of_list [0; 0; 0; 0]) [] (Buffer.of_string "hi")
                          (Buffer.of_list [9; 9; 9; 9]) ++ []) 0.
Proof. apply parseFrame_layout_only; reflexivity || (vm_compute; discriminate). Defined.

End LayoutTheoremsExamples.

(** ** Header records cut short by the end of the region *)

Section CutRecords.
Context {engine : Engine}.
Import Buffer BufferFacts.









End CutRecords.

Section CutRecordsExamples.
#[local] Existing Instance example_engine.




Lemma wrapped_frame_nested :
  exists fr inner,
    parseFrame no_gunzip wrapped_frame 0 = Return (Some fr) /\ nested fr = Some inner.
Proof. do 2 eexists. split; vm_compute; reflexivity. Qed.

Lemma nested_frame_smaller_witness :
  exists fr inner,
    parseFrame no_gunzip wrapped_frame 0 = Return (Some fr)
    /\ nested fr = Some inner
    /\ 16 <= consumed inner
    /\ consumed inner + headersLength_at wrapped_frame 0 + 16 <= consumed fr.
Proof.
  destruct wrapped_frame_nested as (fr & inner & Hp & Hn).
  exists fr, inner. split; [exact Hp|]. split; [exact Hn|].
  exact (nested_frame_smaller no_gunzip wrapped_frame 0 fr inner Hp Hn).
Defined.



End CutRecordsExamples.

(** ** The checksum *)

Section Crc32c.
Import Int32.

Lemma to_uint32_range z : 0 <= to_uint32 z < 2 ^ 32.
Proof. unfold to_uint32. apply Z.mod_pos_bound. reflexivity. Qed.

Lemma to_uint32_small z : 0 <= z < 2 ^ 32 -> to_uint32 z = z.
Proof. intros H. unfold to_uint32. apply Z.mod_small. exact H. Qed.

Lemma to_uint32_to_int32 z : to_uint32 (to_int32 z) = to_uint32 z.
Proof.
  unfold to_int32, to_uint32.
  pose proof (Z.mod_pos_bound z (2 ^ 32) ltac:(reflexivity)) as Hr.
  destruct (z mod 2 ^ 32 <? 2 ^ 31).
  - apply Z.mod_mod. discriminate.
  - replace (z mod 2 ^ 32 - 2 ^ 32) with (z mod 2 ^ 32 + (-1) * 2 ^ 32) by ring.
    rewrite Z.mod_add by discriminate. apply Z.mod_mod. discriminate.
Qed.

Lemma testbit_to_uint32 z n :
  Z.testbit (to_uint32 z) n = (n <? 32) && Z.testbit z n.
Proof. unfold to_uint32. apply Z.testbit_mod_pow2. lia. Qed.

Lemma testbit_to_int32 z n : n < 32 -> Z.testbit (to_int32 z) n = Z.testbit z n.
Proof.
  intros Hn.
  pose proof (testbit_to_uint32 (to_int32 z) n) as H1.
  pose proof (testbit_to_uint32 z n) as H2.
  rewrite to_uint32_to_int32 in H1. rewrite H1 in H2.
  apply Z.ltb_lt in Hn. rewrite Hn in H2. exact H2.
Qed.

Lemma to_uint32_xor a b : to_uint32 (xor a b) = Z.lxor (to_uint32 a) (to_uint32 b).
Proof.
  unfold xor. rewrite to_uint32_to_int32.
  apply Z.bits_inj'. intros n Hn.
  rewrite Z.lxor_spec, !testbit_to_uint32, Z.lxor_spec.
  destruct (n <? 32) eqn:E; [|reflexivity].
  apply Z.ltb_lt in E. rewrite !testbit_to_int32 by exact E. reflexivity.
Qed.

Lemma to_uint32_and a b : to_uint32 (and a b) = Z.land (to_uint32 a) (to_uint32 b).
Proof.
  unfold and. rewrite to_uint32_to_int32.
  apply Z.bits_inj'. intros n Hn.
  rewrite Z.land_spec, !testbit_to_uint32, Z.land_spec.
  destruct (n <? 32) eqn:E; [|reflexivity].
  apply Z.ltb_lt in E. rewrite !testbit_to_int32 by exact E. reflexivity.
Qed.

Lemma to_int32_small z : 0 <= z < 2 ^ 31 -> to_int32 z = z.
Proof.
  intros H. unfold to_int32. rewrite Z.mod_small by lia.
  destruct (z <? 2 ^ 31) eqn:E; [reflexivity|]. apply Z.ltb_ge in E. lia.
Qed.

Lemma ones_range n : 0 <= n <= 31 -> 0 <= Z.ones n < 2 ^ 31.
Proof.
  intros Hn. rewrite Z.ones_equiv.
  pose proof (Z.pow_pos_nonneg 2 n ltac:(lia) ltac:(lia)).
  pose proof (Z.pow_le_mono_r 2 n 31 ltac:(lia) ltac:(lia)). lia.
Qed.

Lemma and_mask a n :
  0 <= n <= 31 -> and a (Z.ones n) = Z.land (to_uint32 a) (Z.ones n).
Proof.
  intros Hn. unfold and.
  rewrite (to_int32_small (Z.ones n)) by (apply ones_range; exact Hn).
  assert (Z.land (to_int32 a) (Z.ones n) = Z.land (to_uint32 a) (Z.ones n)) as ->.
  { apply Z.bits_inj'. intros i Hi.
    rewrite !Z.land_spec, Z.testbit_ones_nonneg by lia.
    destruct (i <? n) eqn:E; [|rewrite !andb_false_r; reflexivity].
    apply Z.ltb_lt in E. rewrite testbit_to_int32, testbit_to_uint32 by lia.
    assert ((i <? 32) = true) as -> by (apply Z.ltb_lt; lia). reflexivity. }
  apply to_int32_small. rewrite Z.land_ones by lia.
  pose proof (Z.mod_pos_bound (to_uint32 a) (2 ^ n) ltac:(apply Z.pow_pos_nonneg; lia)).
  pose proof (Z.pow_le_mono_r 2 n 31 ltac:(lia) ltac:(lia)). lia.
Qed.

Lemma ushr_range a n : 0 <= n -> 0 <= ushr a n < 2 ^ 32.
Proof.
  intros Hn. unfold ushr. pose proof (to_uint32_range a) as Hr.
  rewrite Z.shiftr_div_pow2 by exact Hn.
  pose proof (Z.pow_pos_nonneg 2 n ltac:(lia) Hn) as Hp.
  split; [apply Z.div_pos; lia|].
  apply Z.div_lt_upper_bound; [lia|]. nia.
Qed.

Lemma to_uint32_ushr a n : 0 <= n -> to_uint32 (ushr a n) = Z.shiftr (to_uint32 a) n.
Proof. intros Hn. apply to_uint32_small. apply ushr_range. exact Hn. Qed.

Lemma crc32c_round_unsigned c : to_uint32 (crc32c_round c) = crc_shift (to_uint32 c).
Proof.
  unfold crc32c_round, crc_shift.
  change 1 with (Z.ones 1) at 1. rewrite and_mask by lia.
  rewrite Z.land_ones by lia. change (2 ^ 1) with 2.
  rewrite Zmod_odd, Z.bit0_odd.
  destruct (Z.odd (to_uint32 c)); cbn [Z.eqb].
  - rewrite to_uint32_xor, to_uint32_ushr by lia.
    rewrite (to_uint32_small 2197175160) by lia. apply Z.lxor_comm.
  - rewrite to_uint32_ushr by lia. rewrite Z.lxor_0_r. reflexivity.
Qed.

Lemma crc32c_rounds_unsigned n c :
  to_uint32 (Nat.iter n crc32c_round c) = Nat.iter n crc_shift (to_uint32 c).
Proof.
  induction n as [|n IH]; [reflexivity|].
  rewrite !Nat.iter_succ, crc32c_round_unsigned, IH. reflexivity.
Qed.

Lemma crc_shift_lxor a b : crc_shift (Z.lxor a b) = Z.lxor (crc_shift a) (crc_shift b).
Proof.
  unfold crc_shift. rewrite Z.shiftr_lxor, Z.lxor_spec.
  apply Z.bits_inj'. intros n Hn.
  destruct (Z.testbit a 0), (Z.testbit b 0); cbn [xorb];
    rewrite !Z.lxor_spec, ?Z.bits_0;
    repeat match goal with
           | |- context [Z.testbit ?x ?i] => destruct (Z.testbit x i)
           end; reflexivity.
Qed.

Lemma crc_shifts_lxor n a b :
  Nat.iter n crc_shift (Z.lxor a b)
  = Z.lxor (Nat.iter n crc_shift a) (Nat.iter n crc_shift b).
Proof.
  induction n as [|n IH]; [reflexivity|].
  rewrite !Nat.iter_succ, IH. apply crc_shift_lxor.
Qed.

Lemma crc_shifts_shiftl k h j :
  0 <= j -> Nat.iter k crc_shift (Z.shiftl h (j + Z.of_nat k)) = Z.shiftl h j.
Proof.
  revert j. induction k as [|k IH]; intros j Hj.
  - change (Z.of_nat 0) with 0. rewrite Z.add_0_r. reflexivity.
  - rewrite Nat.iter_succ_r. unfold crc_shift at 2.
    rewrite Z.shiftl_spec_low by lia. rewrite Z.lxor_0_r.
    rewrite Z.shiftr_shiftl_l by lia.
    replace (j + Z.of_nat (S k) - 1) with (j + Z.of_nat k) by lia.
    apply IH. exact Hj.
Qed.

Lemma split_low_byte u : u = Z.lxor (Z.shiftl (Z.shiftr u 8) 8) (Z.land u 255).
Proof.
  apply Z.bits_inj'. intros n Hn.
  rewrite Z.lxor_spec, Z.land_spec, Z.shiftl_spec by exact Hn.
  change 255 with (Z.ones 8). rewrite Z.testbit_ones_nonneg by lia.
  destruct (n <? 8) eqn:E.
  - apply Z.ltb_lt in E. rewrite (Z.testbit_neg_r _ (n - 8)) by lia.
    rewrite andb_true_r. reflexivity.
  - apply Z.ltb_ge in E. rewrite Z.shiftr_spec by lia.
    replace (n - 8 + 8) with n by lia. rewrite andb_false_r, xorb_false_r. reflexivity.
Qed.

(** Eight rounds on a state: the high 24 bits move down unchanged and the
    low byte contributes what eight rounds make of it alone. *)
Lemma crc_shifts_byte u :
  Nat.iter 8 crc_shift u
  = Z.lxor (Z.shiftr u 8) (Nat.iter 8 crc_shift (Z.land u 255)).
Proof.
  rewrite (split_low_byte u) at 1. rewrite crc_shifts_lxor.
  pose proof (crc_shifts_shiftl 8 (Z.shiftr u 8) 0 ltac:(lia)) as Hs.
  change (0 + Z.of_nat 8) with 8 in Hs. rewrite Hs, Z.shiftl_0_r. reflexivity.
Qed.

Lemma crc32c_index_range crc x : 0 <= crc32c_index crc x < 256.
Proof.
  unfold crc32c_index. change 255 with (Z.ones 8). rewrite and_mask by lia.
  rewrite Z.land_ones by lia. apply Z.mod_pos_bound. reflexivity.
Qed.

Lemma crc32c_index_unsigned crc x :
  crc32c_index crc x = Z.land (Z.lxor (to_uint32 crc) (Buffer.byte_val x)) 255.
Proof.
  unfold crc32c_index. change 255 with (Z.ones 8) at 1. rewrite and_mask by lia.
  rewrite to_uint32_xor.
  rewrite (to_uint32_small (Buffer.byte_val x)); [reflexivity|].
  pose proof (BufferFacts.byte_val_range x). lia.
Qed.

Lemma getCrc32cTable_nth i :
  0 <= i < 256 -> nth (Z.to_nat i) getCrc32cTable 0 = crc32c_entry i.
Proof.
  intros Hi. unfold getCrc32cTable.
  rewrite (nth_indep _ 0 (crc32c_entry (Z.of_nat 0)))
    by (rewrite List.length_map, List.length_seq; lia).
  rewrite (map_nth (fun i => crc32c_entry (Z.of_nat i))).
  rewrite seq_nth by lia. rewrite Nat.add_0_l, Z2Nat.id by lia. reflexivity.
Qed.

Lemma crc32c_entry_unsigned i :
  0 <= i < 256 -> crc32c_entry i = Nat.iter 8 crc_shift i.
Proof.
  intros Hi. unfold crc32c_entry.
  rewrite <- (to_uint32_small i) at 2 by lia.
  rewrite <- crc32c_rounds_unsigned. reflexivity.
Qed.

Lemma crc32c_step crc1 crc2 x :
  to_uint32 crc1 = to_uint32 crc2 ->
  to_uint32 (xor (ushr crc1 8) (nth (Z.to_nat (crc32c_index crc1 x)) getCrc32cTable 0))
  = to_uint32 (Nat.iter 8 crc32c_round (xor crc2 (Buffer.byte_val x))).
Proof.
  intros H. pose proof (crc32c_index_range crc1 x) as Hi.
  pose proof (BufferFacts.byte_val_range x) as Hb.
  rewrite getCrc32cTable_nth, crc32c_entry_unsigned by exact Hi.
  rewrite to_uint32_xor, to_uint32_ushr by lia.
  rewrite crc32c_rounds_unsigned, to_uint32_xor.
  rewrite (to_uint32_small (Buffer.byte_val x)) by lia.
  rewrite <- H.
  rewrite (crc_shifts_byte (Z.lxor (to_uint32 crc1) (Buffer.byte_val x))), Z.shiftr_lxor.
  rewrite (Z.shiftr_div_pow2 (Buffer.byte_val x)) by lia.
  rewrite (Z.div_small (Buffer.byte_val x)) by (change (2 ^ 8) with 256; lia).
  rewrite Z.lxor_0_r, crc32c_index_unsigned.
  assert (0 <= Nat.iter 8 crc_shift (Z.land (Z.lxor (to_uint32 crc1) (Buffer.byte_val x)) 255)
          < 2 ^ 32) as Hr.
  { rewrite <- crc32c_index_unsigned, <- crc32c_entry_unsigned by exact Hi.
    unfold crc32c_entry. apply to_uint32_range. }
  rewrite (to_uint32_small (Nat.iter 8 crc_shift _)) by exact Hr.
  reflexivity.
Qed.

Lemma fold_left_related {A B : Type} (R : A -> A -> Prop) (f g : A -> B -> A) :
  (forall a a' x, R a a' -> R (f a x) (g a' x)) ->
  forall l a a', R a a' -> R (fold_left f l a) (fold_left g l a').
Proof.
  intros Hfg l. induction l as [|x l IH]; intros a a' H; [exact H|].
  cbn [fold_left]. apply IH. apply Hfg. exact H.
Qed.

Lemma crc32c_loop data crc1 crc2 :
  to_uint32 crc1 = to_uint32 crc2 ->
  to_uint32
    (fold_left
       (fun crc x =>
          xor (ushr crc 8)
            (nth (Z.to_nat (and (xor crc (Buffer.byte_val x)) 255)) getCrc32cTable 0))
       data crc1)
  = to_uint32
      (fold_left (fun crc x => Nat.iter 8 crc32c_round (xor crc (Buffer.byte_val x)))
         data crc2).
Proof.
  apply (fold_left_related (fun a b => to_uint32 a = to_uint32 b)).
  intros a a' x H. cbv beta.
  pose proof (crc32c_step a a' x H) as Hs. unfold crc32c_index in Hs. exact Hs.
Qed.

(** X10. The table-driven [crc32c] computes the checksum that runs the
    round of the table generator eight times for each byte: the reflected
    CRC with the polynomial 0x82F63B78, initial value and final complement
    0xFFFFFFFF. *)
Theorem crc32c_table_driven (data : Buffer.t) : crc32c data = crc32c_bitwise data.
Proof.
  unfold crc32c, crc32c_bitwise. cbv zeta. unfold ushr at 1 3.
  rewrite !to_uint32_xor. rewrite (crc32c_loop data 4294967295 4294967295 eq_refl).
  reflexivity.
Qed.

(** X11. Every table lookup of [crc32c] is inside the 256 entries of the
    table, every entry is an unsigned 32-bit value, and so is the
    checksum. *)
Theorem crc32c_in_range (data : Buffer.t) (crc : Z) (x : byte) :
  0 <= crc32c_index crc x < Z.of_nat (length getCrc32cTable)
  /\ Forall (fun e => 0 <= e < 2 ^ 32) getCrc32cTable
  /\ 0 <= crc32c data < 2 ^ 32.
Proof.
  split; [|split].
  - unfold getCrc32cTable. rewrite List.length_map, List.length_seq.
    apply crc32c_index_range.
  - unfold getCrc32cTable. apply List.Forall_map. apply List.Forall_forall.
    intros i _. unfold crc32c_entry. apply to_uint32_range.
  - unfold crc32c. cbv zeta. apply ushr_range. lia.
Qed.

End Crc32c.

(** The check value of CRC-32C. *)
Example crc32c_check_value : crc32c (Buffer.of_string "123456789") = 3808858755.
Proof. vm_compute. reflexivity. Qed.

(** ** settings.js *)

Section SettingsFacts.
Import Settings.

Lemma Set_has_true (s : list key) k : Set_has s k = true <-> k ∈ s.
Proof. unfold Set_has. apply bool_decide_eq_true. Qed.

Lemma Set_has_false (s : list key) k : Set_has s k = false <-> k ∉ s.
Proof. unfold Set_has. apply bool_decide_eq_false. Qed.

Lemma elem_of_Set_add (s : list key) k x : x ∈ Set_add s k <-> x ∈ s \/ x = k.
Proof.
  unfold Set_add. destruct (Set_has s k) eqn:E.
  - apply Set_has_true in E. split; [auto|]. intros [H| ->]; assumption.
  - rewrite elem_of_app, list_elem_of_singleton. reflexivity.
Qed.

Lemma NoDup_Set_add (s : list key) k : NoDup s -> NoDup (Set_add s k).
Proof.
  intros H. unfold Set_add. destruct (Set_has s k) eqn:E; [exact H|].
  apply Set_has_false in E. apply NoDup_app. split; [exact H|]. split.
  - intros x Hx Hk. apply list_elem_of_singleton in Hk. subst. contradiction.
  - apply NoDup_singleton.
Qed.

Lemma Set_add_nonempty (s : list key) k : Set_add s k <> [].
Proof.
  intros H. assert (k ∈ Set_add s k) as Hk by (apply elem_of_Set_add; right; reflexivity).
  rewrite H in Hk. exact (not_elem_of_nil _ Hk).
Qed.

Lemma elem_of_Set_delete (s : list key) k x : x ∈ Set_delete s k <-> x ∈ s /\ x <> k.
Proof. unfold Set_delete. rewrite list_elem_of_filter. tauto. Qed.

Lemma NoDup_Set_delete (s : list key) k : NoDup s -> NoDup (Set_delete s k).
Proof. apply NoDup_filter. Qed.

Lemma Set_delete_absent (s : list key) k : k ∉ s -> Set_delete s k = s.
Proof.
  unfold Set_delete. induction s as [|x s IH]; intros H; [reflexivity|].
  apply not_elem_of_cons in H as [Hx Hs].
  rewrite filter_cons_True by congruence. rewrite IH by exact Hs. reflexivity.
Qed.

Lemma Set_delete_added (s : list key) k : k ∉ s -> Set_delete (s ++ [k]) k = s.
Proof.
  intros H. unfold Set_delete. rewrite filter_app.
  fold (Set_delete s k). rewrite Set_delete_absent by exact H.
  rewrite filter_cons_False by (intros Hn; apply Hn; reflexivity).
  apply app_nil_r.
Qed.

Lemma Set_delete_keeps_one (s : list key) k :
  NoDup s -> (2 <= length s)%nat -> Set_delete s k <> [].
Proof.
  intros Hnd Hl. destruct s as [|a [|b s]]; cbn [length] in Hl; try lia.
  apply NoDup_cons in Hnd as [Hab _].
  assert (exists x, x ∈ Set_delete (a :: b :: s) k) as [x Hx].
  { destruct (decide (a = k)) as [->|Ha].
    - exists b. apply elem_of_Set_delete. split.
      + apply elem_of_cons. right. apply elem_of_cons. left. reflexivity.
      + intros ->. apply Hab. apply elem_of_cons. left. reflexivity.
    - exists a. apply elem_of_Set_delete. split; [|exact Ha].
      apply elem_of_cons. left. reflexivity. }
  intros E. rewrite E in Hx. exact (not_elem_of_nil _ Hx).
Qed.

Lemma elem_of_fold_Set_add (l acc : list key) x :
  x ∈ fold_left Set_add l acc <-> x ∈ acc \/ x ∈ l.
Proof.
  revert acc. induction l as [|y l IH]; intros acc; cbn [fold_left].
  - split; [auto|]. intros [H|H]; [exact H|]. destruct (not_elem_of_nil _ H).
  - rewrite IH, elem_of_Set_add, elem_of_cons. tauto.
Qed.

Lemma NoDup_fold_Set_add (l acc : list key) :
  NoDup acc -> NoDup (fold_left Set_add l acc).
Proof.
  revert acc. induction l as [|y l IH]; intros acc H; cbn [fold_left]; [exact H|].
  apply IH. apply NoDup_Set_add. exact H.
Qed.

Lemma fold_Set_add_distinct (l acc : list key) :
  NoDup (acc ++ l) -> fold_left Set_add l acc = acc ++ l.
Proof.
  revert acc. induction l as [|y l IH]; intros acc H; cbn [fold_left].
  - symmetry. apply app_nil_r.
  - assert (Set_add acc y = acc ++ [y]) as ->.
    { unfold Set_add. apply NoDup_app in H as (_ & Hd & _).
      destruct (Set_has acc y) eqn:E; [|reflexivity].
      apply Set_has_true in E. destruct (Hd y E). apply elem_of_cons. left. reflexivity. }
    rewrite IH; rewrite <- app_assoc; [reflexivity | exact H].
Qed.

Lemma Set_of_distinct (l : list key) : NoDup l -> Set_of l = l.
Proof. intros H. unfold Set_of. apply (fold_Set_add_distinct l []). exact H. Qed.

Lemma after_keeps_a_key a w st :
  NoDup (listApiKeys st) -> listApiKeys st <> [] ->
  NoDup (listApiKeys (after a w st)) /\ listApiKeys (after a w st) <> [].
Proof.
  intros Hnd Hne. destruct st as [[ak ks] f]. unfold listApiKeys in *.
  cbn [settings apiKeys] in Hnd, Hne.
  destruct a as [k|k|k]; unfold after.
  - unfold addApiKey, save. cbn [settings apiKeys adminKey file].
    destruct (Set_has ks k) eqn:E; [split; assumption|].
    destruct w; cbn [snd settings apiKeys];
      (split; [apply NoDup_Set_add; exact Hnd | apply Set_add_nonempty]).
  - unfold removeApiKey, save. cbn [settings apiKeys adminKey file].
    destruct (Z.leb_spec (Z.of_nat (length ks)) 1) as [Hs|Hs]; [split; assumption|].
    destruct (Set_has ks k); [destruct w|]; cbn [snd settings apiKeys];
      (split; [apply NoDup_Set_delete; exact Hnd | apply Set_delete_keeps_one; [exact Hnd | lia]]).
  - unfold changeAdminKey, save. cbn [settings apiKeys adminKey file].
    destruct w; cbn [snd settings apiKeys]; split; assumption.
Qed.

(** X12. Once the set holds an API key, no run of [addApiKey],
    [removeApiKey] and [changeAdminKey] calls empties it, whether the writes
    to the file succeed or fail; and the keys listed stay distinct. *)
Theorem run_keeps_a_key (calls : list (action * write)) (st : store) :
  NoDup (listApiKeys st) -> listApiKeys st <> [] ->
  NoDup (listApiKeys (run calls st)) /\ listApiKeys (run calls st) <> [].
Proof.
  revert st. induction calls as [|[a w] calls IH]; intros st Hnd Hne; [split; assumption|].
  unfold run. cbn [fold_left fst snd]. fold (run calls (after a w st)).
  destruct (after_keeps_a_key a w st Hnd Hne) as (Hnd' & Hne').
  apply IH; assumption.
Qed.

Lemma after_in_sync a st : in_sync st -> in_sync (after a Written st).
Proof.
  intros Hs. destruct st as [[ak ks] f]. unfold in_sync in *. cbn [settings file] in Hs.
  destruct a as [k|k|k]; unfold after.
  - unfold addApiKey, save. cbn [settings apiKeys adminKey file].
    destruct (Set_has ks k); [exact Hs | reflexivity].
  - unfold removeApiKey, save. cbn [settings apiKeys adminKey file].
    destruct (Z.of_nat (length ks) <=? 1)%Z; [exact Hs|].
    destruct (Set_has ks k) eqn:E; [reflexivity|].
    cbn [snd settings file]. apply Set_has_false in E.
    rewrite Set_delete_absent by exact E. exact Hs.
  - reflexivity.
Qed.

(** X13. When every write succeeds, the file holds what is in memory after
    each call: a run of calls on a manager in step with its file leaves it in
    step. *)
Theorem run_in_sync (calls : list (action * write)) (st : store) :
  in_sync st -> Forall (fun c => c.2 = Written) calls -> in_sync (run calls st).
Proof.
  revert st. induction calls as [|[a w] calls IH]; intros st Hs Hw; [exact Hs|].
  apply List.Forall_cons_iff in Hw as [Hw1 Hw]. cbn [snd] in Hw1. subst w.
  unfold run. cbn [fold_left fst snd]. fold (run calls (after a Written st)).
  apply IH; [apply after_in_sync; exact Hs | exact Hw].
Qed.

(** X14. [addApiKey] adds the key before it saves and does not take it back:
    when the write fails the promise is rejected, yet the key is accepted
    from then on, and a second [addApiKey] of it returns [false] without
    writing. *)
Theorem addApiKey_rejected_keeps_key (leaves : option settings_t) (k : key) (st : store) :
  verifyApiKey st k = false ->
  let r := addApiKey (WriteFailed leaves) k st in
  r.1 = Rejected
  /\ verifyApiKey r.2 k = true
  /\ file r.2 = leaves
  /\ forall w, addApiKey w k r.2 = (Fulfilled false, r.2).
Proof.
  intros Hv r. unfold verifyApiKey in *.
  assert (r = (Rejected,
               Store (Settings (adminKey (settings st)) (Set_add (apiKeys (settings st)) k))
                 leaves)) as ->
    by (subst r; unfold addApiKey, save; rewrite Hv; reflexivity).
  cbn [fst snd settings apiKeys file].
  assert (Set_has (Set_add (apiKeys (settings st)) k) k = true) as Hin
    by (apply Set_has_true, elem_of_Set_add; right; reflexivity).
  split; [reflexivity|]. split; [exact Hin|]. split; [reflexivity|].
  intros w. unfold addApiKey. cbn [settings apiKeys]. rewrite Hin. reflexivity.
Qed.

(** X15. A removal whose write failed and left the file as it was is undone
    by a restart: the key is refused by the running manager, and accepted
    again by a manager that loads the file. *)
Theorem removeApiKey_rejected_restart (k : key) (st : store) :
  NoDup (listApiKeys st) -> in_sync st ->
  verifyApiKey st k = true -> (2 <= length (listApiKeys st))%nat ->
  let r := removeApiKey (WriteFailed (file st)) k st in
  r.1 = Rejected
  /\ verifyApiKey r.2 k = false
  /\ forall w defaultAdminKey defaultApiKey,
       verifyApiKey (init true w defaultAdminKey defaultApiKey (new_manager (file r.2))).2 k
       = true.
Proof.
  intros Hnd Hs Hv Hl r. subst r. destruct st as [[ak ks] f].
  unfold in_sync, listApiKeys, verifyApiKey in *. cbn [settings apiKeys file] in *.
  unfold removeApiKey, save. cbn [settings apiKeys adminKey file].
  destruct (Z.leb_spec (Z.of_nat (length ks)) 1) as [Hs1|_]; [lia|].
  rewrite Hv. cbn [fst snd settings apiKeys file].
  split; [reflexivity|]. split.
  - apply Set_has_false. rewrite elem_of_Set_delete. tauto.
  - intros w da dk. subst f. unfold init, new_manager. cbn [file snd settings apiKeys].
    rewrite Set_of_distinct by exact Hnd. exact Hv.
Qed.

(** X16. What [save] writes, [init] reads back: a new manager on the saved
    file has the admin key and the API keys of the manager that saved, in
    the same order, whatever defaults it is given. *)
Theorem init_restores_saved (st : store) (w : write) (defaultAdminKey defaultApiKey : key) :
  NoDup (listApiKeys st) ->
  let saved := save Written st in
  let r := init true w defaultAdminKey defaultApiKey (new_manager (file saved.2)) in
  saved.1 = Fulfilled tt /\ r.1 = Fulfilled tt /\ settings r.2 = settings st
  /\ file r.2 = file saved.2.
Proof.
  intros Hnd saved r. subst saved r. destruct st as [[ak ks] f].
  unfold listApiKeys in Hnd. cbn [settings apiKeys] in Hnd.
  unfold save, init, new_manager. cbn [fst snd settings apiKeys adminKey file].
  rewrite Set_of_distinct by exact Hnd. repeat split; reflexivity.
Qed.

(** X17. [init] never rejects. When [fs.mkdir] fails the manager keeps the
    settings of the constructor: the empty admin key, which [verifyAdminKey]
    accepts, and no API key. When the file cannot be loaded the defaults are
    in force, whether or not they could be saved. When it is loaded, the API
    keys are those of its array, each once. *)
Theorem init_outcomes (found : option settings_t) (mkdir_ok : bool) (w : write)
    (defaultAdminKey defaultApiKey : key) :
  let r := init mkdir_ok w defaultAdminKey defaultApiKey (new_manager found) in
  r.1 = Fulfilled tt
  /\ (mkdir_ok = false ->
      verifyAdminKey r.2 [] = true /\ listApiKeys r.2 = [])
  /\ (mkdir_ok = true -> found = None ->
      verifyAdminKey r.2 defaultAdminKey = true /\ listApiKeys r.2 = [defaultApiKey])
  /\ (mkdir_ok = true -> forall loaded, found = Some loaded ->
      adminKey (settings r.2) = adminKey loaded
      /\ NoDup (listApiKeys r.2)
      /\ forall k, verifyApiKey r.2 k = true <-> k ∈ apiKeys loaded).
Proof.
  intros r. subst r. unfold init, new_manager. cbn [file settings apiKeys].
  split; [destruct mkdir_ok; [destruct found|]; reflexivity|].
  split; [|split].
  - intros ->. cbn [snd]. split; reflexivity.
  - intros -> ->. unfold save. destruct w; cbn [snd]; unfold verifyAdminKey, listApiKeys;
      cbn [settings adminKey apiKeys]; (split; [apply bool_decide_eq_true; reflexivity | reflexivity]).
  - intros -> loaded ->. cbn [snd]. unfold listApiKeys, verifyApiKey. cbn [settings adminKey apiKeys].
    split; [reflexivity|]. split.
    + apply NoDup_fold_Set_add. apply NoDup_nil. exact I.
    + intros k. rewrite Set_has_true. unfold Set_of. rewrite elem_of_fold_Set_add.
      split; [intros [H|H]; [destruct (not_elem_of_nil _ H) | exact H] | auto].
Qed.

(** X18. Adding a new key and removing it again restores the settings: both
    calls return [true], the list of keys is the one before, in the same
    order, and the file holds it. *)
Theorem add_then_remove (k : key) (st : store) :
  listApiKeys st <> [] -> verifyApiKey st k = false ->
  let r1 := addApiKey Written k st in
  let r2 := removeApiKey Written k r1.2 in
  r1.1 = Fulfilled true /\ r2.1 = Fulfilled true
  /\ settings r2.2 = settings st /\ in_sync r2.2.
Proof.
  intros Hne Hv r1 r2. subst r2 r1. destruct st as [[ak ks] f].
  unfold listApiKeys, verifyApiKey, in_sync in *. cbn [settings apiKeys file] in *.
  unfold addApiKey, save. cbn [settings apiKeys adminKey file]. rewrite Hv.
  cbn [fst snd]. unfold removeApiKey, save. cbn [settings apiKeys adminKey file].
  assert (Set_add ks k = ks ++ [k]) as Ha by (unfold Set_add; rewrite Hv; reflexivity).
  rewrite Ha.
  destruct (Z.leb_spec (Z.of_nat (length (ks ++ [k]))) 1) as [Hs|_].
  { rewrite length_app in Hs. cbn [length] in Hs. destruct ks; [congruence|cbn [length] in Hs; lia]. }
  assert (Set_has (ks ++ [k]) k = true) as ->
    by (apply Set_has_true, elem_of_app; right; apply list_elem_of_singleton; reflexivity).
  cbn [fst snd settings file]. apply Set_has_false in Hv.
  rewrite Set_delete_added by exact Hv. repeat split; reflexivity.
Qed.

End SettingsFacts.

Lemma two_keys_distinct : NoDup (Settings.listApiKeys two_keys).
Proof. apply (bool_decide_unpack _). vm_compute. exact I. Qed.

Lemma run_keeps_a_key_witness :
  NoDup (Settings.listApiKeys (Settings.run some_calls two_keys))
  /\ Settings.listApiKeys (Settings.run some_calls two_keys) <> [].
Proof.
  apply (run_keeps_a_key some_calls two_keys two_keys_distinct).
  vm_compute. discriminate.
Defined.

Lemma run_in_sync_witness :
  Settings.in_sync
    (Settings.run [ (Settings.AddApiKey (js "k3"), Settings.Written);
                    (Settings.RemoveApiKey (js "k1"), Settings.Written);
                    (Settings.ChangeAdminKey (js "root"), Settings.Written) ] two_keys).
Proof.
  apply run_in_sync; [reflexivity|].
  repeat (apply List.Forall_cons; [reflexivity|]). apply List.Forall_nil.
Defined.

Lemma addApiKey_rejected_keeps_key_witness :
  (Settings.addApiKey (Settings.WriteFailed None) (js "k3") two_keys).1 = Settings.Rejected
  /\ Settings.verifyApiKey
       (Settings.addApiKey (Settings.WriteFailed None) (js "k3") two_keys).2 (js "k3") = true.
Proof.
  destruct (addApiKey_rejected_keeps_key None (js "k3") two_keys) as (H1 & H2 & _).
  - vm_compute. reflexivity.
  - split; [exact H1 | exact H2].
Defined.

Lemma removeApiKey_rejected_restart_witness :
  Settings.verifyApiKey
    (Settings.removeApiKey (Settings.WriteFailed (Settings.file two_keys)) (js "k1") two_keys).2
    (js "k1") = false
  /\ Settings.verifyApiKey
       (Settings.init true Settings.Written (js "a") (js "d")
          (Settings.new_manager
             (Settings.file
                (Settings.removeApiKey (Settings.WriteFailed (Settings.file two_keys))
                   (js "k1") two_keys).2))).2
       (js "k1") = true.
Proof.
  destruct (removeApiKey_rejected_restart (js "k1") two_keys two_keys_distinct)
    as (_ & H2 & H3).
  - reflexivity.
  - vm_compute. reflexivity.
  - vm_compute. lia.
  - split; [exact H2 | apply H3].
Defined.

Lemma init_restores_saved_witness :
  Settings.settings
    (Settings.init true Settings.Written (js "a") (js "d")
       (Settings.new_manager (Settings.file (Settings.save Settings.Written two_keys).2))).2
  = Settings.settings two_keys.
Proof.
  exact (proj1 (proj2 (proj2 (init_restores_saved two_keys Settings.Written (js "a") (js "d")
                                two_keys_distinct)))).
Defined.

Lemma add_then_remove_witness :
  Settings.settings
    (Settings.removeApiKey Settings.Written (js "k3")
       (Settings.addApiKey Settings.Written (js "k3") two_keys).2).2
  = Settings.settings two_keys.
Proof.
  refine (proj1 (proj2 (proj2 (add_then_remove (js "k3") two_keys _ _)))).
  - vm_compute. discriminate.
  - vm_compute. reflexivity.
Defined.

(** ** The decoder after a call, and the offset of parseFrame *)

Section DecoderResults.
Context {engine : Engine}.
Import Buffer BufferFacts.
Variable gunzipSync : Buffer.t -> option Buffer.t.

(** "Not enough data" at offset 0 is the answer to a stalled buffer only. *)
Lemma parseFrame_None_stalled (buf : t) :
  parseFrame gunzipSync buf 0 = Return None -> stalled buf.
Proof.
  rewrite parseFrame_eq. intros H.
  destruct (parseFrame_body_spec gunzipSync (parseFrame gunzipSync) buf 0)
    as [(Hs & _) | [(_ & ? & _) | (tl & hl & _ & _ & Htl & _ & _ & E)]]; [|lia|].
  { left. unfold MIN_MESSAGE_SIZE, PRELUDE_SIZE, MESSAGE_CRC_SIZE in Hs. lia. }
  apply readUInt32BE_at in Htl. subst tl. cbv zeta in E.
  unfold MIN_MESSAGE_SIZE, MAX_MESSAGE_SIZE, PRELUDE_SIZE, MESSAGE_CRC_SIZE in E.
  destruct E as [(_ & E) | [(Hb & Hw & _) | (_ & _ & E)]]; [congruence | |].
  { right. split; lia. }
  destruct E as [(e & _ & _ & E) | (hs & _ & [(_ & E) | (_ & E)])]; [congruence | | congruence].
  rewrite E in H.
  destruct (parseFrame gunzipSync (payload_region buf 0 (totalLength_at buf 0) hl) 0);
    discriminate H.
Qed.

Lemma length_yielded_nil : length (yielded []) = O.
Proof. reflexivity. Qed.

Lemma length_yielded_Yield fr evs :
  length (yielded (Yield fr :: evs)) = S (length (yielded evs)).
Proof. reflexivity. Qed.

Lemma length_yielded_Resync evs : length (yielded (Resync :: evs)) = length (yielded evs).
Proof. reflexivity. Qed.

(** The loop stops on a stalled buffer, and each frame it yields has taken
    at least 16 bytes. *)
Lemma decode_loop_final (n : nat) :
  forall (buf : t) evs final,
    (length buf <= n)%nat ->
    decode_loop gunzipSync (length buf) buf = Return (evs, final) ->
    stalled final
    /\ 16 * Z.of_nat (length (yielded evs)) + len final <= len buf.
Proof.
  induction n as [|n IH]; intros buf evs final Hn H; rewrite decode_loop_eq in H.
  - destruct (Z.leb_spec MIN_MESSAGE_SIZE (len buf)) as [Hl|Hl].
    { unfold MIN_MESSAGE_SIZE, PRELUDE_SIZE, MESSAGE_CRC_SIZE, len in Hl. lia. }
    injection H as <- <-. rewrite length_yielded_nil. split; [left|];
      unfold MIN_MESSAGE_SIZE, PRELUDE_SIZE, MESSAGE_CRC_SIZE in Hl; lia.
  - destruct (Z.leb_spec MIN_MESSAGE_SIZE (len buf)) as [Hl|Hl].
    2:{ injection H as <- <-. rewrite length_yielded_nil. split; [left|];
          unfold MIN_MESSAGE_SIZE, PRELUDE_SIZE, MESSAGE_CRC_SIZE in Hl; lia. }
    pose proof (decode_turn_cases gunzipSync buf) as Ht.
    destruct (parseFrame gunzipSync buf 0) as [[fr|]|e|] eqn:Hp; [| | |contradiction].
    + destruct Ht as (Hc & Hfit & _ & Ht & Hrest). rewrite Ht in H. cbn [bind] in H.
      apply parseFrame_Some in Hp. cbv zeta in Hp. destruct Hp as (_ & Hb & _).
      unfold MIN_MESSAGE_SIZE, PRELUDE_SIZE, MESSAGE_CRC_SIZE in Hb, Hl.
      set (rest := drop (Z.to_nat (consumed fr)) buf) in *.
      destruct (decode_loop gunzipSync (length rest) rest) as [[evs' final']| |] eqn:Hr;
        cbn [bind] in H; try discriminate H.
      injection H as <- <-.
      destruct (IH rest evs' final') as (Hst & Hcount); [unfold len in *; lia | exact Hr |].
      split; [exact Hst|]. rewrite length_yielded_Yield. lia.
    + destruct Ht as (Ht & _). rewrite Ht in H. cbn [bind] in H. injection H as <- <-.
      split; [apply parseFrame_None_stalled; exact Hp | rewrite length_yielded_nil; lia].
    + destruct Ht as (Ht & Hrest). rewrite Ht in H. cbn [bind] in H.
      destruct (decode_loop gunzipSync (length (drop 1 buf)) (drop 1 buf))
        as [[evs' final']| |] eqn:Hr; cbn [bind] in H; try discriminate H.
      injection H as <- <-.
      destruct (IH (drop 1 buf) evs' final') as (Hst & Hcount);
        [unfold len in *; lia | exact Hr |].
      split; [exact Hst|]. rewrite length_yielded_Resync. lia.
Qed.

(** X19. [decode] always returns, and leaves a buffer it can do nothing
    with until more is fed: fewer than 16 bytes, or the start of a frame
    whose declared length is legal and not yet there. A second call right
    after yields nothing and changes nothing. *)
Theorem decode_settles (d : EventStreamDecoder) :
  exists frames d',
    decode gunzipSync d = Return (frames, d')
    /\ stalled (buffer d')
    /\ decode gunzipSync d' = Return ([], d').
Proof.
  destruct (decode_loop_returns gunzipSync (buffer d)) as (evs & final & Hl).
  destruct (decode_loop_final (length (buffer d)) (buffer d) evs final (le_n _) Hl)
    as (Hst & _).
  exists (yielded evs), {| buffer := final |}.
  unfold decode at 1, decode_trace. rewrite Hl. cbn [bind buffer].
  split; [reflexivity|]. split; [exact Hst|].
  apply decode_stalled. exact Hst.
Qed.

(** X20. Every frame that a call of [decode] yields has taken at least 16
    bytes from the buffer: 16 times their number, plus what is left, is at
    most what was there. *)
Theorem decode_frame_count (d : EventStreamDecoder) :
  exists frames d',
    decode gunzipSync d = Return (frames, d')
    /\ 16 * Z.of_nat (length frames) + len (buffer d') <= len (buffer d).
Proof.
  destruct (decode_loop_returns gunzipSync (buffer d)) as (evs & final & Hl).
  destruct (decode_loop_final (length (buffer d)) (buffer d) evs final (le_n _) Hl)
    as (_ & Hc).
  exists (yielded evs), {| buffer := final |}.
  unfold decode, decode_trace. rewrite Hl. cbn [bind buffer].
  split; [reflexivity | exact Hc].
Qed.

Lemma window_drop n (b : t) o i :
  0 <= o <= len b -> 0 <= i ->
  window n (drop (Z.to_nat o) b) i = window n b (o + i).
Proof.
  intros Ho Hi. unfold window.
  assert (len (drop (Z.to_nat o) b) = len b - o) as ->
    by (unfold len in *; rewrite length_drop; lia).
  replace (i + Z.of_nat n <=? len b - o) with (o + i + Z.of_nat n <=? len b)
    by (destruct (Z.leb_spec (o + i + Z.of_nat n) (len b));
        destruct (Z.leb_spec (i + Z.of_nat n) (len b - o)); lia || reflexivity).
  destruct (Z.leb_spec 0 i); [|lia]. destruct (Z.leb_spec 0 (o + i)); [|lia].
  cbn [andb]. destruct (o + i + Z.of_nat n <=? len b); [|reflexivity].
  rewrite drop_drop. do 3 f_equal. lia.
Qed.

Lemma slice_drop (b : t) o s e :
  0 <= o <= len b -> 0 <= s -> 0 <= e ->
  slice (drop (Z.to_nat o) b) s e = slice b (o + s) (o + e).
Proof.
  intros Ho Hs He. unfold slice.
  rewrite !clamp_nonneg by lia.
  assert (len (drop (Z.to_nat o) b) = len b - o) as ->
    by (unfold len in *; rewrite length_drop; lia).
  rewrite drop_drop. f_equal; [|f_equal]; lia.
Qed.

Lemma parseFrame_body_shift recur (buffer : t) offset :
  0 <= offset ->
  parseFrame_body gunzipSync recur buffer offset
  = parseFrame_body gunzipSync recur (slice_from buffer offset) 0.
Proof.
  intros Ho. rewrite slice_from_drop by exact Ho. unfold parseFrame_body.
  pose proof (len_nonneg buffer) as Hn.
  destruct (Z.ltb_spec (len buffer - offset) MIN_MESSAGE_SIZE) as [Hs|Hl].
  - assert ((len (drop (Z.to_nat offset) buffer) - 0 <? MIN_MESSAGE_SIZE) = true) as ->;
      [|reflexivity].
    apply Z.ltb_lt. unfold len in *. rewrite length_drop.
    unfold MIN_MESSAGE_SIZE, PRELUDE_SIZE, MESSAGE_CRC_SIZE in *. lia.
  - assert (0 <= offset <= len buffer) as Hin
      by (unfold MIN_MESSAGE_SIZE, PRELUDE_SIZE, MESSAGE_CRC_SIZE in *; lia).
    assert (len (drop (Z.to_nat offset) buffer) = len buffer - offset) as Hlen
      by (unfold len in *; rewrite length_drop; lia).
    rewrite Hlen, Z.sub_0_r.
    destruct (Z.ltb_spec (len buffer - offset) MIN_MESSAGE_SIZE) as [?|_]; [lia|].
    unfold readUInt32BE.
    rewrite !window_drop by lia. rewrite Z.add_0_r. change (0 + 4) with 4.
    destruct (window 4 buffer offset) as [w1| |]; cbn [bind]; try reflexivity.
    destruct (window 4 buffer (offset + 4)) as [w2| |] eqn:Hw2; cbn [bind]; try reflexivity.
    destruct ((be_value w1 <? MIN_MESSAGE_SIZE) || (MAX_MESSAGE_SIZE <? be_value w1)) eqn:Hb;
      [reflexivity|].
    apply orb_false_iff in Hb as (Hb1 & Hb2). apply Z.ltb_ge in Hb1, Hb2.
    destruct (len buffer - offset <? be_value w1); [reflexivity|].
    pose proof (be_value_range w2) as Hr.
    unfold MIN_MESSAGE_SIZE, PRELUDE_SIZE, MESSAGE_CRC_SIZE in *.
    rewrite !slice_drop by lia.
    replace (offset + (0 + 12 + be_value w2)) with (offset + 12 + be_value w2) by lia.
    replace (offset + (0 + be_value w1 - 4)) with (offset + be_value w1 - 4) by lia.
    replace (offset + (0 + 12)) with (offset + 12) by lia.
    reflexivity.
Qed.

(** X21. The offset argument of [parseFrame] is a slice: from a
    non-negative offset it reads what it reads from offset 0 of
    [buffer.slice(offset)]. *)
Theorem parseFrame_offset (buffer : Buffer.t) (offset : Z) :
  0 <= offset ->
  parseFrame gunzipSync buffer offset
  = parseFrame gunzipSync (slice_from buffer offset) 0.
Proof.
  intros Ho. rewrite !parseFrame_eq. apply parseFrame_body_shift. exact Ho.
Qed.

End DecoderResults.

Section DecoderResultsExamples.
#[local] Existing Instance example_engine.

Lemma parseFrame_offset_witness :
  parseFrame no_gunzip (Buffer.of_list [1; 2; 3] ++ event_frame) 3
  = parseFrame no_gunzip (Buffer.slice_from (Buffer.of_list [1; 2; 3] ++ event_frame) 3) 0.
Proof. apply parseFrame_offset. lia. Defined.

End DecoderResultsExamples.
